(** * GPS jamming monitor: run snapshots, diffing and trend aggregation

    A shallow embedding of the analytical part of [streamlit2.py]: the
    reduction of a raw event table to one latest row per vessel, the set
    algebra between the current and the previous run, the sidebar alerts,
    the consistency metrics and the multi-run trend.

    A pandas DataFrame is a list of rows in frame order, a Python [set] is
    a [gset], [len] is [length] or [size]; a null cell is [None]. Numbers
    that Python keeps in a float are rationals ([Q]): the stability ratio is
    kept exact, the surge percentage, whose integer part is shown, is
    rounded as binary64 rounds it. *)

From Stdlib Require Import QArith Ascii String.
From stdpp Require Import base numbers list sorting strings gmap.

Local Open Scope Z_scope.

(** ** Data model *)

(** One row of [tsw_jammed_events_hist] after the column renaming of the
    fetch step. [timestamp] is the instant of [event_start] as pandas keeps
    it (a 64-bit count on the time axis); the region may be null. *)
Record Event := mkEvent {
  vesselid : Z;
  eez_overall : option string;
  timestamp : Z;
  latitude : option Q;
  longitude : option Q
}.

(** A DataFrame of events: its rows in frame order. *)
Abbreviation DataFrame := (list Event).

(** ** Sorting

    [sorted] puts a list in ascending order and keeps equal elements in
    their order: an insertion sort over a strict comparison [ltb]. *)
Section Sorting.
Context {A : Type} (ltb : A → A → bool).

Fixpoint insert_sorted (x : A) (s : list A) : list A :=
  match s with
  | [] => [x]
  | y :: s' => if ltb y x then y :: insert_sorted x s' else x :: y :: s'
  end.

Definition sort_by (l : list A) : list A := foldr insert_sorted [] l.

(** [x] may stand before [y] in an ascending frame. *)
Definition ascending (x y : A) : Prop := ltb y x = false.
End Sorting.

(** [DataFrame.sort_values] is called with its default sort kind,
    [kind="quicksort"], which is not stable: the rows come back rearranged
    in ascending key order, and the order among rows of equal key depends
    on the implementation of the sort and on the frame. A sort kind is any
    function that rearranges rows into ascending order; what is proved of
    the script holds for every sort kind. *)
Class SortKind := {
  sort_rows : ∀ {A : Type}, (A → A → bool) → list A → list A;
  sort_rows_perm :
    ∀ {A : Type} (ltb : A → A → bool) (l : list A), sort_rows ltb l ≡ₚ l;
  sort_rows_ascending :
    ∀ {A : Type} (ltb : A → A → bool) (l : list A),
      (∀ x y, ltb x y = true → ltb y x = false) →
      (∀ x y z, ascending ltb x y → ascending ltb y z → ascending ltb x z) →
      StronglySorted (ascending ltb) (sort_rows ltb l)
}.

(** The comparison of two rows on the [timestamp] column. *)
Definition ts_ltb (a b : Event) : bool := timestamp a <? timestamp b.

(** [df.sort_values("timestamp")]. *)
Definition sort_values {kind : SortKind} (df : DataFrame) : DataFrame :=
  sort_rows ts_ltb df.

(** ** State reduction

    [.groupby("vesselid", as_index=False).tail(1)]: the rows that are the
    last of their vessel's group, in frame order. *)
Fixpoint groupby_tail1 (df : DataFrame) : DataFrame :=
  match df with
  | [] => []
  | e :: rest =>
      if existsb (λ e', vesselid e' =? vesselid e) rest
      then groupby_tail1 rest
      else e :: groupby_tail1 rest
  end.

(** The pipeline that builds [current_run] and [previous_run]. *)
Definition reduce {kind : SortKind} (df : DataFrame) : DataFrame :=
  groupby_tail1 (sort_values df).

(** The last row of vessel [v] in a frame, if any. *)
Fixpoint last_of (v : Z) (df : DataFrame) : option Event :=
  match df with
  | [] => None
  | e :: rest =>
      match last_of v rest with
      | Some e' => Some e'
      | None => if vesselid e =? v then Some e else None
      end
  end.

(** The row of vessel [v] with the greatest timestamp, the later row
    winning among equal timestamps. *)
Fixpoint latest_of (v : Z) (df : DataFrame) : option Event :=
  match df with
  | [] => None
  | e :: rest =>
      if vesselid e =? v then
        match latest_of v rest with
        | Some e' => if timestamp e' <? timestamp e then Some e else Some e'
        | None => Some e
        end
      else latest_of v rest
  end.

(** Where the latest row of a vessel stands in the frame: no row of the
    vessel before it is later, every row of the vessel after it is
    strictly earlier. *)
Definition latest_at (v : Z) (df : DataFrame) (e : Event) : Prop :=
  ∃ before after,
    df = before ++ e :: after ∧ vesselid e = v ∧
    (∀ e', e' ∈ before → vesselid e' = v → timestamp e' ≤ timestamp e) ∧
    (∀ e', e' ∈ after → vesselid e' = v → timestamp e' < timestamp e).

(** ** Exceptions

    The script is a sequence of statements; a statement that raises ends
    the run. *)
Inductive Exn :=
  | TypeError | ValueError | KeyError | IndexError | FileNotFoundError
  | DatabaseError.

Inductive Result (A : Type) : Type :=
  | Ok (a : A)
  | Raise (e : Exn).
Arguments Ok {A} a.
Arguments Raise {A} e.

#[global] Instance result_ret : MRet Result := λ A a, Ok a.
#[global] Instance result_bind : MBind Result := λ A B f m,
  match m with
  | Ok a => f a
  | Raise e => Raise e
  end.

(** ** Run storage *)

(** A naive local [datetime], as [datetime.now()] returns it. *)
Record datetime := mkDatetime {
  year : Z;
  month : Z;
  day : Z;
  hour : Z;
  minute : Z;
  second : Z;
  microsecond : Z
}.

Definition is_leap (y : Z) : bool :=
  (y mod 4 =? 0) && (negb (y mod 100 =? 0) || (y mod 400 =? 0)).

Definition days_in_month (y m : Z) : Z :=
  if m =? 2 then (if is_leap y then 29 else 28)
  else if (m =? 4) || (m =? 6) || (m =? 9) || (m =? 11) then 30
  else 31.

(** The values a [datetime] object can hold. *)
Definition valid_datetime (d : datetime) : bool :=
  (1 <=? year d) && (year d <=? 9999) &&
  (1 <=? month d) && (month d <=? 12) &&
  (1 <=? day d) && (day d <=? days_in_month (year d) (month d)) &&
  (0 <=? hour d) && (hour d <=? 23) &&
  (0 <=? minute d) && (minute d <=? 59) &&
  (0 <=? second d) && (second d <=? 59) &&
  (0 <=? microsecond d) && (microsecond d <=? 999999).

(** Datetimes compare field by field, the year first. *)
Definition lex (c1 c2 : comparison) : comparison :=
  match c1 with
  | Eq => c2
  | _ => c1
  end.

Definition dt_compare (a b : datetime) : comparison :=
  lex (year a ?= year b) (lex (month a ?= month b) (lex (day a ?= day b)
  (lex (hour a ?= hour b) (lex (minute a ?= minute b)
  (lex (second a ?= second b) (microsecond a ?= microsecond b)))))).

Definition dt_ltb (a b : datetime) : bool :=
  match dt_compare a b with
  | Lt => true
  | _ => false
  end.

(** The save time as the file name keeps it: whole seconds. *)
Definition to_second (d : datetime) : datetime :=
  mkDatetime (year d) (month d) (day d) (hour d) (minute d) (second d) 0.

Definition digit (n : Z) : ascii := ascii_of_N (48 + Z.to_N n).

(** The decimal digits of [n] on [width] places, zero padded, followed by
    [rest]. *)
Fixpoint zero_pad (width : nat) (n : Z) (rest : string) : string :=
  match width with
  | O => rest
  | S w => zero_pad w (n / 10) (String (digit (n mod 10)) rest)
  end.

(** [d.strftime("%Y%m%d_%H%M%S")], followed by [rest]. The year is
    written on four digits, as it is for the years from 1000 on, where the
    clock of a running script is. *)
Definition strftime_then (d : datetime) (rest : string) : string :=
  zero_pad 4 (year d) (zero_pad 2 (month d) (zero_pad 2 (day d)
  (String "_" (zero_pad 2 (hour d) (zero_pad 2 (minute d)
  (zero_pad 2 (second d) rest)))))).

Definition strftime (d : datetime) : string := strftime_then d "".

Definition RUN_FOLDER : string := "runs".

(** [os.path.join(RUN_FOLDER, f"run_{timestamp_str}.csv")]. *)
Definition run_filename (now : datetime) : string :=
  RUN_FOLDER +:+ "/" +:+ "run_" +:+ strftime now +:+ ".csv".

(** The texts [pd.read_csv] takes for a missing value: its default
    [na_values] (the text None is among them since pandas 2.0). *)
Definition na_values : list string :=
  [""; "#N/A"; "#N/A N/A"; "#NA"; "-1.#IND"; "-1.#QNAN"; "-NaN"; "-nan";
   "1.#IND"; "1.#QNAN"; "<NA>"; "N/A"; "NA"; "NULL"; "NaN"; "None"; "n/a";
   "nan"; "null"].

(** A region cell as it is read back from a file: a null is written as the
    empty text and read as a null, and so is every name that is one of
    [na_values]. *)
Definition read_region (r : option string) : option string :=
  match r with
  | Some name => if bool_decide (name ∈ na_values) then None else Some name
  | None => None
  end.

(** [df.to_csv(filename, index=False)], as the table [pd.read_csv] reads
    from the file written. Vessel ids and positions come back as written;
    timestamps come back as text of one format, which sorts as the instants
    do. The region column is read as text: a column whose every name is a
    numeral or a truth value, which pandas reads as numbers, is outside the
    embedding. *)
Definition to_csv (df : DataFrame) : DataFrame :=
  (λ e, mkEvent (vesselid e) (read_region (eez_overall e)) (timestamp e)
                (latitude e) (longitude e)) <$> df.

(** The run folder: the path of each run file and the table [pd.read_csv]
    reads from it. The files are those [to_csv] wrote; a file that cannot be
    parsed is outside the embedding. *)
Definition save_run (df : DataFrame) (now : datetime)
    (folder : gmap string DataFrame) : string * gmap string DataFrame :=
  let filename := run_filename now in
  (filename, <[filename := to_csv df]> folder).

Definition read_csv (folder : gmap string DataFrame) (f : string)
    : Result DataFrame :=
  match folder !! f with
  | Some df => Ok df
  | None => Raise FileNotFoundError
  end.

Fixpoint strip_prefix (p s : string) : option string :=
  match p, s with
  | EmptyString, _ => Some s
  | String a p', String b s' => if Ascii.eqb a b then strip_prefix p' s' else None
  | String _ _, EmptyString => None
  end.

Fixpoint has_char (c : ascii) (s : string) : bool :=
  match s with
  | EmptyString => false
  | String b s' => Ascii.eqb c b || has_char c s'
  end.

Definition ends_with (suffix s : string) : bool :=
  (String.length suffix <=? String.length s)%nat &&
  String.eqb
    (substring (String.length s - String.length suffix) (String.length suffix) s)
    suffix.

(** The paths [glob] returns for [runs/run_*.csv]: the star matches any
    run of characters inside one path component. *)
Definition glob_run (path : string) : bool :=
  match strip_prefix "runs/run_" path with
  | Some rest => ends_with ".csv" rest && negb (has_char "/" rest)
  | None => false
  end.

(** [sorted(glob.glob(...))]: strings in lexicographic order of their
    characters. *)
Definition run_files (folder : gmap string DataFrame) : list string :=
  sort_by String.ltb (filter (λ p, glob_run p = true) (elements (dom folder))).

(** The slice [l[-k:]]; [l[-0:]] is the whole list. *)
Definition last_rows {A} (k : nat) (l : list A) : list A :=
  if decide (k = 0%nat) then l else drop (length l - k) l.

(** [os.path.basename]. *)
Fixpoint basename (path : string) : string :=
  match path with
  | EmptyString => EmptyString
  | String c rest =>
      if has_char "/" rest then basename rest
      else if Ascii.eqb c "/" then rest else path
  end.

(** [s.replace(old, "")] for a non-empty [old]: occurrences are removed
    from left to right; [skip] counts the characters of a match still to be
    dropped. *)
Fixpoint remove_from (old : string) (skip : nat) (s : string) : string :=
  match s with
  | EmptyString => EmptyString
  | String c s' =>
      match skip with
      | S k => remove_from old k s'
      | O =>
          if String.prefix old s
          then remove_from old (String.length old - 1) s'
          else String c (remove_from old 0 s')
      end
  end.

Definition remove_all (old s : string) : string := remove_from old 0 s.

Definition parse_digit (c : ascii) : option Z :=
  let n := N_of_ascii c in
  if (48 <=? n)%N && (n <=? 57)%N then Some (Z.of_N n - 48) else None.

Fixpoint read_digits (width : nat) (acc : Z) (s : string) : option (Z * string) :=
  match width with
  | O => Some (acc, s)
  | S w =>
      match s with
      | String c s' =>
          match parse_digit c with
          | Some d => read_digits w (acc * 10 + d) s'
          | None => None
          end
      | EmptyString => None
      end
  end.

(** [datetime.strptime(s, "%Y%m%d_%H%M%S")], restricted to the fixed-width
    text that [strftime] writes: four digits, twice two digits, an
    underscore, three times two digits, denoting a date and time that exist.
    The embedding raises [ValueError] on any other text. *)
Definition strptime (s : string) : Result datetime :=
  match
    '(y, s) ← read_digits 4 0 s;
    '(m, s) ← read_digits 2 0 s;
    '(d, s) ← read_digits 2 0 s;
    s ← strip_prefix "_" s;
    '(hh, s) ← read_digits 2 0 s;
    '(mm, s) ← read_digits 2 0 s;
    '(ss, s) ← read_digits 2 0 s;
    let t := mkDatetime y m d hh mm ss 0 in
    if String.eqb s "" && valid_datetime t then Some t else None
  with
  | Some t => Ok t
  | None => Raise ValueError
  end.

(** The run time read back from a file name. *)
Definition run_time_of (f : string) : Result datetime :=
  strptime (remove_all ".csv" (remove_all "run_" (basename f))).

(** ** New and resolved events *)

(** [set(run["vesselid"])] and [set(run["eez_overall"])]: every value of
    the column, a null region included. [None] in a region set is the null
    of the run the set is built from. *)
Definition vessel_set (run : DataFrame) : gset Z :=
  list_to_set (vesselid <$> run).

Definition region_set (run : DataFrame) : gset (option string) :=
  list_to_set (eez_overall <$> run).

Definition new_vessels (current_run previous_run : DataFrame) : gset Z :=
  vessel_set current_run ∖ vessel_set previous_run.

(** The two set differences of the region sets. The current run comes from
    the query, where a null region is Python's [None]; the previous run
    comes from a run file, where a null region is the float nan. The two
    are different objects, so a null of one run is never removed by the
    other run's set: [None] in [new_regions] is the current run's null,
    [None] in [resolved_regions] is the previous run's. *)
Definition new_regions (current_run previous_run : DataFrame)
    : gset (option string) :=
  region_set current_run ∖ (region_set previous_run ∖ {[None]}).

Definition resolved_regions (current_run previous_run : DataFrame)
    : gset (option string) :=
  region_set previous_run ∖ (region_set current_run ∖ {[None]}).

(** The previous run and the [first_run] flag: the file before the last
    one when there is one and the comparison is switched on, else an empty
    frame. *)
Definition load_previous {kind : SortKind} (folder : gmap string DataFrame)
    (compare_prev : bool) : Result (DataFrame * bool) :=
  let files := run_files folder in
  if (1 <? length files)%nat && compare_prev then
    match files !! (length files - 2)%nat with
    | Some f =>
        previous_df ← read_csv folder f;
        mret (reduce previous_df, false)
    | None => Raise IndexError
    end
  else mret ([], true).

(** ** Sidebar alerts *)

Inductive SidebarMsg :=
  | warning (new : gset string)       (* New region detected: ... *)
  | success (resolved : gset string)  (* Region resolved: ... *)
  | error (pct : Z).                  (* > pct% increase in jammed vessels! *)

(** What the sidebar shows, and the exception that ended the block if one
    was raised. *)
Record Sidebar := mkSidebar {
  shown : list SidebarMsg;
  raised : option Exn
}.

(** [', '.join(regions)]: the names of the set; a null member is not a
    string and makes [join] raise. *)
Definition join (regions : gset (option string)) : Result (gset string) :=
  if decide (None ∈ regions) then Raise TypeError
  else Ok (set_omap id regions).

(** One [if regions: st.sidebar.<kind>(... join(regions) ...)] statement. *)
Definition say (kind : gset string → SidebarMsg)
    (regions : gset (option string)) (sb : Sidebar) : Sidebar :=
  match raised sb with
  | Some _ => sb
  | None =>
      if decide (regions = ∅) then sb
      else match join regions with
           | Ok names => mkSidebar (shown sb ++ [kind names]) None
           | Raise e => mkSidebar (shown sb) (Some e)
           end
  end.

(** The quotient of two integers; both uses are guarded by [b ≠ 0]. *)
Definition true_div (a b : Z) : Q := inject_Z a / inject_Z b.

(** [int(x)]: truncation towards zero. *)
Definition int (x : Q) : Z := Z.quot (Qnum x) (Zpos (Qden x)).

(** The integer nearest to [n / d], the even one of two equally near, for
    [0 ≤ n] and [0 < d]. *)
Definition round_half_even (n d : Z) : Z :=
  let m := n / d in
  match 2 * (n mod d) ?= d with
  | Lt => m
  | Gt => m + 1
  | Eq => if Z.even m then m else m + 1
  end.

(** [n / d] divided by [2 ^ k], as a fraction. *)
Definition scale2 (n d k : Z) : Z * Z :=
  if 0 <=? k then (n, d * 2 ^ k) else (n * 2 ^ (- k), d).

(** The binary64 float nearest to [q] (round to nearest, ties to even): a
    53-bit significand times a power of two. Exponent limits are left out;
    the values of the script are far inside them. *)
Definition round_double (q : Q) : Q :=
  let n := Z.abs (Qnum q) in
  let d := Zpos (Qden q) in
  if n =? 0 then 0
  else
    let e0 := Z.log2 n - Z.log2 d in
    let '(n1, d1) := scale2 n d e0 in
    let e := if n1 <? d1 then e0 - 1 else e0 in
    let '(n2, d2) := scale2 n d (e - 52) in
    let m := Z.sgn (Qnum q) * round_half_even n2 d2 in
    if 0 <=? e - 52 then inject_Z (m * 2 ^ (e - 52))
    else m # Z.to_pos (2 ^ (52 - e)).

(** [((len(current_vessels) - len(previous_vessels)) /
    len(previous_vessels)) * 100]: the division of two integers and the
    product by 100 each give the nearest float. *)
Definition increase_pct (current_vessels previous_vessels : gset Z) : Q :=
  round_double
    (round_double
       (true_div
          (Z.of_nat (size current_vessels) - Z.of_nat (size previous_vessels))
          (Z.of_nat (size previous_vessels)))
     * 100).

Definition surge (current_vessels previous_vessels : gset Z) (sb : Sidebar)
    : Sidebar :=
  match raised sb with
  | Some _ => sb
  | None =>
      if bool_decide (previous_vessels ≠ ∅)
         && (size previous_vessels <? size current_vessels)%nat
      then
        if negb (Qle_bool (increase_pct current_vessels previous_vessels) 10)
        then mkSidebar
               (shown sb ++ [error (int (increase_pct current_vessels previous_vessels))])
               None
        else sb
      else sb
  end.

Definition smart_alerts (first_run : bool) (current_run previous_run : DataFrame)
    : Sidebar :=
  if first_run then mkSidebar [] None
  else
    surge (vessel_set current_run) (vessel_set previous_run)
      (say success (resolved_regions current_run previous_run)
        (say warning (new_regions current_run previous_run)
          (mkSidebar [] None))).

(** ** Key metrics and the new-vessels button *)

Definition kpi_metrics (current_run previous_run : DataFrame) : nat * nat * nat :=
  (size (vessel_set current_run),
   size (new_vessels current_run previous_run),
   size (region_set current_run)).

Inductive NewVesselsView :=
  | baseline_info       (* This is the first run. All vessels are baseline. *)
  | no_new_vessels      (* No new vessels detected. *)
  | new_vessels_table (rows : list (Z * option string * Z)).

Definition show_new_jammed_vessels (first_run : bool)
    (current_run previous_run : DataFrame) : NewVesselsView :=
  if first_run then baseline_info
  else
    let new_df :=
      filter (λ e, vesselid e ∈ new_vessels current_run previous_run) current_run in
    match new_df with
    | [] => no_new_vessels
    | _ => new_vessels_table
             ((λ e, (vesselid e, eez_overall e, timestamp e)) <$> new_df)
    end.

(** ** Model consistency metrics *)

(** [len(current_regions & previous_regions) / len(previous_regions) * 100],
    guarded by [previous_regions]. The script reaches the metric only when
    neither set holds a null, a null of either run having made [join] raise
    in the sidebar block. *)
Definition stability_pct (current_regions previous_regions : gset (option string))
    : Q :=
  if decide (previous_regions ≠ ∅) then
    true_div (Z.of_nat (size (current_regions ∩ previous_regions)))
             (Z.of_nat (size previous_regions)) * 100
  else 100.

(** The stability metric is shown only when this is not the first run. *)
Definition detection_stability (first_run : bool)
    (current_run previous_run : DataFrame) : option Q :=
  if first_run then None
  else Some (stability_pct (region_set current_run) (region_set previous_run)).

(** [df.drop_duplicates("vesselid")]: the first row of each vessel. *)
Fixpoint drop_duplicates_from (seen : gset Z) (df : DataFrame) : DataFrame :=
  match df with
  | [] => []
  | e :: rest =>
      if decide (vesselid e ∈ seen) then drop_duplicates_from seen rest
      else e :: drop_duplicates_from ({[vesselid e]} ∪ seen) rest
  end.

Definition drop_duplicates (df : DataFrame) : DataFrame :=
  drop_duplicates_from ∅ df.

(** [pd.concat(frames)]; an empty list of frames is a [ValueError]. *)
Definition pd_concat (frames : list DataFrame) : Result DataFrame :=
  match frames with
  | [] => Raise ValueError
  | _ => Ok (concat frames)
  end.

(** [df.groupby("vesselid").size()]: the number of rows of each vessel. *)
Definition groupby_size (df : DataFrame) : gmap Z nat :=
  foldr (λ e counts,
           <[vesselid e := S (default 0%nat (counts !! vesselid e))]> counts)
        ∅ df.

(** The appearances of each vessel over a window of run tables. *)
Definition persistence (window : list DataFrame) : Result (gmap Z nat) :=
  all_runs_df ← pd_concat (drop_duplicates <$> window);
  mret (groupby_size all_runs_df).

Definition event_persistence (folder : gmap string DataFrame) (last_n_runs : nat)
    : Result (gmap Z nat) :=
  window ← mapM (read_csv folder) (last_rows last_n_runs (run_files folder));
  persistence window.

(** ** Multi-run trend *)

Record TrendRow := mkTrendRow {
  run_time : datetime;
  jammed_vessels : nat
}.

Definition run_time_ltb (a b : TrendRow) : bool :=
  dt_ltb (run_time a) (run_time b).

(** One trend row per run of the window, then
    [DataFrame(trend_data).sort_values("run_time")], a sort of the default
    kind; a frame built from no rows has no [run_time] column. *)
Definition buildTrend {kind : SortKind} (window : list (datetime * DataFrame))
    : Result (list TrendRow) :=
  let trend_data :=
    (λ '(t, df), mkTrendRow t (length (drop_duplicates df))) <$> window in
  match trend_data with
  | [] => Raise KeyError
  | _ => Ok (sort_rows run_time_ltb trend_data)
  end.

(** The loop over [trend_runs]: each file is read and its run time parsed
    from its name. *)
Definition load_run (folder : gmap string DataFrame) (f : string)
    : Result (datetime * DataFrame) :=
  run_df ← read_csv folder f;
  t ← run_time_of f;
  mret (t, run_df).

Definition trend_df {kind : SortKind} (folder : gmap string DataFrame)
    (last_n_runs : nat) : Result (list TrendRow) :=
  let files := run_files folder in
  let trend_runs := last_rows (last_n_runs `min` length files) files in
  window ← mapM (load_run folder) trend_runs;
  buildTrend window.

(** ** One comparison cycle: previous run, alerts and stability

    The statements of the script from the reduction of the current run to
    the stability metric, in their order: an exception raised in the sidebar
    block ends the run before the metric. *)

Record Comparison := mkComparison {
  first_run : bool;
  previous_run : DataFrame;
  alerts : list SidebarMsg;
  stability : option Q
}.

Definition compare_runs {kind : SortKind} (folder : gmap string DataFrame)
    (compare_prev : bool) (df_current : DataFrame) : Result Comparison :=
  let current_run := reduce df_current in
  '(previous_run, first_run) ← load_previous folder compare_prev;
  let sb := smart_alerts first_run current_run previous_run in
  match raised sb with
  | Some e => Raise e
  | None =>
      mret (mkComparison first_run previous_run (shown sb)
              (detection_stability first_run current_run previous_run))
  end.

(** ** Notions used to state the properties *)

(** A run has a row of region [r]. *)
Definition has_region (run : DataFrame) (r : option string) : Prop :=
  ∃ e, e ∈ run ∧ eez_overall e = r.

(** The sidebar shows a vessel surge. *)
Definition surge_shown (sb : Sidebar) : Prop := ∃ pct, error pct ∈ shown sb.

(** The number of run tables of a window in which vessel [v] occurs. *)
Definition appearances (v : Z) (window : list DataFrame) : nat :=
  length (filter (λ df, v ∈ vesselid <$> df) window).

(** The rows of vessel [v] in a frame. *)
Definition rows_of (v : Z) (df : DataFrame) : nat :=
  length (filter (λ e, vesselid e = v) df).

(** Every file of the folder carries the name [save_run] gives to the run
    time read back from it. *)
Definition well_named (folder : gmap string DataFrame) : bool :=
  forallb (λ f, match run_time_of f with
                | Ok t => String.eqb (run_filename t) f
                | Raise _ => false
                end)
          (elements (dom folder)).

(** A window in ascending order of its timestamps. *)
Definition sort_window (window : list (datetime * DataFrame))
    : list (datetime * DataFrame) :=
  sort_by (λ a b, dt_ltb a.1 b.1) window.

(** Lexicographic comparison of integer sequences, the common form of the
    comparison of datetimes and of strings. *)
Fixpoint list_compare (l1 l2 : list Z) : comparison :=
  match l1, l2 with
  | [], [] => Eq
  | [], _ :: _ => Lt
  | _ :: _, [] => Gt
  | x :: l1', y :: l2' => lex (x ?= y) (list_compare l1' l2')
  end.

Definition dt_fields (d : datetime) : list Z :=
  [year d; month d; day d; hour d; minute d; second d; microsecond d].

Fixpoint code_points (s : string) : list Z :=
  match s with
  | EmptyString => []
  | String c s' => Z.of_N (N_of_ascii c) :: code_points s'
  end.

(** The trend row of one window element, counted on its reduced state. *)
Definition trend_point {kind : SortKind} (p : datetime * DataFrame)
    : TrendRow :=
  mkTrendRow p.1 (length (reduce p.2)).

(** Two trend rows in ascending order of run time. *)
Definition run_time_le (a b : TrendRow) : Prop :=
  dt_compare (run_time a) (run_time b) ≠ Gt.

(** File [f] carries an earlier run time than file [g]. *)
Definition earlier (f g : string) : Prop :=
  ∃ tf tg, run_time_of f = Ok tf ∧ run_time_of g = Ok tg ∧ dt_compare tf tg = Lt.

(** ** Sample runs

    The scenario of the spec: a previous run with vessels 1, 2, 3 in EEZ_A
    and a current run with vessels 1, 2, 4, 5, the last two in EEZ_B, saved
    one after the other. *)
Definition sample_previous : DataFrame :=
  [mkEvent 1 (Some "EEZ_A") 10 None None;
   mkEvent 2 (Some "EEZ_A") 11 None None;
   mkEvent 3 (Some "EEZ_A") 12 None None].

Definition sample_current : DataFrame :=
  [mkEvent 1 (Some "EEZ_A") 20 None None;
   mkEvent 2 (Some "EEZ_A") 21 None None;
   mkEvent 4 (Some "EEZ_B") 22 None None;
   mkEvent 5 (Some "EEZ_B") 23 None None].

Definition sample_time1 : datetime := mkDatetime 2024 3 9 23 59 58 250000.
Definition sample_time2 : datetime := mkDatetime 2024 3 10 0 0 2 0.

Definition sample_folder : gmap string DataFrame :=
  (save_run sample_current sample_time2
     (save_run sample_previous sample_time1 ∅).2).2.

(** ** Fetching a run and the session

    [st.session_state] holds the fetched table, the flag [run_loaded] and
    the name of the active run across the runs of the script. *)
Record SessionState := mkSession {
  df_current : option DataFrame;
  run_loaded : bool;
  current_run_name : option string
}.

(** The three keys as the script initialises them when absent. *)
Definition initial_session : SessionState := mkSession None false None.

(** The block under [if fetch_data] once the table is fetched and its
    columns are renamed: the table is saved, then the three session keys are
    set. *)
Definition fetch (df : DataFrame) (now : datetime)
    (folder : gmap string DataFrame) : SessionState * gmap string DataFrame :=
  let '(filename, folder') := save_run df now folder in
  (mkSession (Some df) true (Some (basename filename)), folder').

(** What one run of the script gives: the fetch block raised, or the run
    stops at the notice asking for a fetch, or it goes on to the comparison;
    [attribute_error] is the call of [sort_values] on a table that is
    [None]. *)
Inductive Rendered :=
  | fetch_raised (e : Exn)
  | stopped
  | attribute_error
  | page (c : Result Comparison).

(** The script after the fetch block: the notice and [st.stop()] when no
    run is loaded, else the page up to the stability metric. *)
Definition render {kind : SortKind} (compare_prev : bool) (ss : SessionState)
    (folder : gmap string DataFrame) : Rendered :=
  if negb (run_loaded ss) then stopped
  else
    match df_current ss with
    | Some df => page (compare_runs folder compare_prev df)
    | None => attribute_error
    end.

(** One run of the script up to the stability metric. [fetch_data] is the
    press of the fetch button: [Some (Raise e)] when the query, the column
    mapping or the save raises [e], which ends the run before a file is
    written and before a session key is set; [Some (Ok (df, now))] with the
    table fetched and the time of the save. *)
Definition script_run {kind : SortKind}
    (fetch_data : option (Result (DataFrame * datetime)))
    (compare_prev : bool) (ss : SessionState) (folder : gmap string DataFrame)
    : SessionState * gmap string DataFrame * Rendered :=
  match fetch_data with
  | Some (Raise e) => (ss, folder, fetch_raised e)
  | Some (Ok (df, now)) =>
      let '(ss', folder') := fetch df now folder in
      (ss', folder', render compare_prev ss' folder')
  | None => (ss, folder, render compare_prev ss folder)
  end.

(** The session agrees with the folder: nothing is loaded, or the active
    run is a file of the folder, the one the session's table was written
    to. *)
Definition session_ok (ss : SessionState) (folder : gmap string DataFrame)
    : Prop :=
  match df_current ss, current_run_name ss with
  | Some df, Some name =>
      run_loaded ss = true ∧
      ∃ now, name = basename (run_filename now) ∧
             folder !! run_filename now = Some (to_csv df)
  | None, None => run_loaded ss = false
  | _, _ => False
  end.

(** A fetch that went through: the table was saved and the session set. *)
Definition fetched (fetch_data : option (Result (DataFrame * datetime)))
    : Prop :=
  ∃ df now, fetch_data = Some (Ok (df, now)).

(** The runs of the script over a session, one per interaction: what each
    rendered, and the session and folder they leave. *)
Fixpoint script_runs {kind : SortKind}
    (inputs : list (option (Result (DataFrame * datetime)) * bool))
    (ss : SessionState) (folder : gmap string DataFrame)
    : SessionState * gmap string DataFrame * list Rendered :=
  match inputs with
  | [] => (ss, folder, [])
  | (fetch_data, compare_prev) :: rest =>
      let '(ss', folder', rendered) :=
        script_run fetch_data compare_prev ss folder in
      let '(ss'', folder'', more) := script_runs rest ss' folder' in
      (ss'', folder'', rendered :: more)
  end.

(** ** Regions tables *)

(** [run.groupby("eez_overall")["vesselid"]]: the vessel ids of each
    region; a row of null region belongs to no group. *)
Fixpoint vessels_by_region (run : DataFrame) : gmap string (gset Z) :=
  match run with
  | [] => ∅
  | e :: rest =>
      let groups := vessels_by_region rest in
      match eez_overall e with
      | Some r => <[r := {[vesselid e]} ∪ default ∅ (groups !! r)]> groups
      | None => groups
      end
  end.

(** [.nunique()]: the number of distinct vessels of each region. *)
Definition region_counts (run : DataFrame) : gmap string nat :=
  size <$> vessels_by_region run.

(** [.reset_index(name=...)]: one row per region, in ascending order of
    the region name. *)
Definition nunique_by_region (run : DataFrame) : list (string * nat) :=
  (λ r, (r, default 0%nat (region_counts run !! r)))
    <$> sort_by String.ltb (elements (dom (region_counts run))).

Inductive RegionStatus := status_new | status_active.

(** The table of the button "Show Active Regions". *)
Definition show_active_regions (current_run previous_run : DataFrame)
    : list (string * nat * RegionStatus) :=
  (λ '(r, n),
     (r, n,
      if decide (Some r ∈ new_regions current_run previous_run)
      then status_new else status_active))
    <$> nunique_by_region current_run.

(** [pd.merge(current_counts, previous_counts, on="eez_overall",
    how="outer").fillna(0)]: one row per region of either run, in ascending
    order of the region name, a missing count filled with 0. *)
Definition merged_counts (current_run previous_run : DataFrame)
    : list (string * nat * nat) :=
  let current_counts := region_counts current_run in
  let previous_counts := region_counts previous_run in
  (λ r, (r, default 0%nat (current_counts !! r),
            default 0%nat (previous_counts !! r)))
    <$> sort_by String.ltb
          (elements (dom current_counts ∪ dom previous_counts)).

(** ** More notions used to state the properties *)

(** The first row of vessel [v] in a frame, if any. *)
Fixpoint first_of (v : Z) (df : DataFrame) : option Event :=
  match df with
  | [] => None
  | e :: rest => if vesselid e =? v then Some e else first_of v rest
  end.

(** The vessels of a run that have region [r]. *)
Definition vessels_in (r : string) (run : DataFrame) : gset Z :=
  list_to_set (vesselid <$> filter (λ e, eez_overall e = Some r) run).

(** The names in a set of regions. *)
Definition region_names (regions : gset (option string)) : gset string :=
  set_omap id regions.

(** * Proofs *)

(** ** Sorting lemmas *)
Section SortingFacts.
Context {A : Type} (ltb : A → A → bool).
Hypothesis ltb_asym : ∀ x y, ltb x y = true → ltb y x = false.
Hypothesis ascending_trans :
  ∀ x y z, ascending ltb x y → ascending ltb y z → ascending ltb x z.

Lemma insert_sorted_perm x s : insert_sorted ltb x s ≡ₚ x :: s.
Proof.
  induction s as [|y s IH]; simpl; [done|].
  destruct (ltb y x); [|done].
  rewrite IH. apply Permutation_swap.
Qed.

Lemma sort_by_perm l : sort_by ltb l ≡ₚ l.
Proof.
  induction l as [|x l IH]; simpl; [done|].
  rewrite insert_sorted_perm. by rewrite IH.
Qed.

Lemma sort_by_length l : length (sort_by ltb l) = length l.
Proof. by rewrite sort_by_perm. Qed.

Lemma insert_sorted_ascending x s :
  StronglySorted (ascending ltb) s →
  StronglySorted (ascending ltb) (insert_sorted ltb x s).
Proof.
  induction 1 as [|y s Hs IH Hy]; simpl.
  - repeat constructor.
  - destruct (ltb y x) eqn:Hyx.
    + constructor; [done|].
      rewrite insert_sorted_perm. constructor; [|done].
      by apply ltb_asym.
    + constructor; [by constructor|].
      constructor; [done|].
      eapply Forall_impl; [exact Hy|].
      intros z Hz. by eapply ascending_trans.
Qed.

Lemma sort_by_ascending l : StronglySorted (ascending ltb) (sort_by ltb l).
Proof.
  induction l as [|x l IH]; simpl; [constructor|].
  by apply insert_sorted_ascending.
Qed.
End SortingFacts.

(** ** Two sort kinds

    A sort that keeps rows of equal key in frame order, as
    [kind="stable"] would, and one that returns them in the reverse of
    their frame order. Both rearrange rows into ascending order. *)
Lemma sort_by_reverse_perm {A} (ltb : A → A → bool) (l : list A) :
  sort_by ltb (reverse l) ≡ₚ l.
Proof. by rewrite sort_by_perm, reverse_Permutation. Qed.

Definition ties_in_order : SortKind :=
  {| sort_rows := λ A ltb l, sort_by ltb l;
     sort_rows_perm := λ A ltb l, sort_by_perm ltb l;
     sort_rows_ascending := λ A ltb l Hasym Htrans,
       sort_by_ascending ltb Hasym Htrans l |}.

Definition ties_reversed : SortKind :=
  {| sort_rows := λ A ltb l, sort_by ltb (reverse l);
     sort_rows_perm := λ A ltb l, sort_by_reverse_perm ltb l;
     sort_rows_ascending := λ A ltb l Hasym Htrans,
       sort_by_ascending ltb Hasym Htrans (reverse l) |}.

(** Discharges that a frame given row by row is in strictly ascending order
    and has no repeated vessel. *)
Ltac frame_in_order :=
  first [ by repeat constructor
        | apply (bool_decide_unpack _); by vm_compute ].

(** * The script under any sort kind

    [quicksort] stands for what [sort_values] does with its default kind:
    some sort kind. *)
Section Script.
Context {quicksort : SortKind}.

(** A frame in ascending order in which rows of equal key are equal is
    left as it is by every sort kind. *)
Lemma sort_rows_sorted_id {A} (ltb : A → A → bool) (l : list A) :
  (∀ x y, ltb x y = true → ltb y x = false) →
  (∀ x y z, ascending ltb x y → ascending ltb y z → ascending ltb x z) →
  (∀ x y, x ∈ l → y ∈ l → ascending ltb x y → ascending ltb y x → x = y) →
  StronglySorted (ascending ltb) l → sort_rows ltb l = l.
Proof.
  intros Hasym Htrans Hanti Hsorted.
  apply (StronglySorted_unique_strong (ascending ltb)).
  - intros x y Hx Hy. rewrite sort_rows_perm in Hx. by apply Hanti.
  - by apply sort_rows_ascending.
  - done.
  - apply sort_rows_perm.
Qed.

(** So is a frame whose keys increase strictly. *)
Lemma sort_rows_strictly_sorted {A} (ltb : A → A → bool) (l : list A) :
  (∀ x y, ltb x y = true → ltb y x = false) →
  (∀ x y z, ascending ltb x y → ascending ltb y z → ascending ltb x z) →
  StronglySorted (λ x y, ltb x y = true) l → sort_rows ltb l = l.
Proof.
  intros Hasym Htrans Hsorted. apply sort_rows_sorted_id; [done|done| |].
  - intros x y Hx Hy Hxy Hyx. unfold ascending in Hxy, Hyx.
    induction Hsorted as [|z l Hl IH Hz]; [by apply elem_of_nil in Hx|].
    rewrite Forall_forall in Hz.
    apply elem_of_cons in Hx as [->|Hx]; apply elem_of_cons in Hy as [->|Hy].
    + done.
    + apply Hz in Hy. simpl in Hy. congruence.
    + apply Hz in Hx. simpl in Hx. congruence.
    + by apply IH.
  - induction Hsorted as [|z l Hl IH Hz]; constructor; [done|].
    eapply Forall_impl; [exact Hz|]. intros y Hzy. by apply Hasym.
Qed.

Lemma sort_rows_length {A} (ltb : A → A → bool) (l : list A) :
  length (sort_rows ltb l) = length l.
Proof. by rewrite sort_rows_perm. Qed.

(** ** Facts about the reduction *)

Lemma ts_ltb_asym x y : ts_ltb x y = true → ts_ltb y x = false.
Proof. unfold ts_ltb. lia. Qed.

Lemma ts_ascending_trans x y z :
  ascending ts_ltb x y → ascending ts_ltb y z → ascending ts_ltb x z.
Proof. unfold ascending, ts_ltb. lia. Qed.

Lemma ts_ascending_le x y :
  ascending ts_ltb x y ↔ timestamp x ≤ timestamp y.
Proof. unfold ascending, ts_ltb. lia. Qed.

Lemma sort_values_perm df : sort_values df ≡ₚ df.
Proof. apply sort_rows_perm. Qed.

Lemma sort_values_ascending df :
  StronglySorted (ascending ts_ltb) (sort_values df).
Proof.
  apply sort_rows_ascending; [apply ts_ltb_asym|apply ts_ascending_trans].
Qed.

Lemma existsb_vessel v (df : DataFrame) :
  existsb (λ e', vesselid e' =? v) df = true ↔ v ∈ vesselid <$> df.
Proof.
  rewrite existsb_exists, list_elem_of_fmap.
  split.
  - intros (e & Hin & Heq). exists e. split; [lia|by apply list_elem_of_In].
  - intros (e & -> & Hin). exists e. split; [by apply list_elem_of_In|lia].
Qed.

Lemma last_of_None v df : last_of v df = None ↔ v ∉ vesselid <$> df.
Proof.
  induction df as [|e df IH]; simpl.
  - split; [intros _; apply not_elem_of_nil|done].
  - destruct (last_of v df) as [e'|] eqn:Hl.
    + split; [done|]. intros Hn. exfalso.
      apply not_elem_of_cons in Hn as [_ Hn'].
      apply IH in Hn'. done.
    + destruct (Z.eqb_spec (vesselid e) v) as [Heq|Hne].
      * split; [done|]. intros Hn.
        apply not_elem_of_cons in Hn as [Hn _]. done.
      * split; [|done]. intros _. apply not_elem_of_cons. split; [done|].
        by apply IH.
Qed.

Lemma last_of_Some v df e :
  last_of v df = Some e → vesselid e = v ∧ e ∈ df.
Proof.
  induction df as [|x df IH]; simpl; [done|].
  destruct (last_of v df) as [e'|].
  - intros [= <-]. destruct IH as [? ?]; [done|]. split; [done|by right].
  - destruct (Z.eqb_spec (vesselid x) v); [|done].
    intros [= <-]. split; [done|by left].
Qed.

(** A row survives [tail(1)] exactly when it is the last of its vessel. *)
Lemma groupby_tail1_elem df e :
  e ∈ groupby_tail1 df ↔ last_of (vesselid e) df = Some e.
Proof.
  induction df as [|x df IH]; simpl.
  { split; [by intros ?%elem_of_nil|done]. }
  destruct (existsb _ df) eqn:Hex.
  - apply existsb_vessel in Hex.
    destruct (last_of (vesselid e) df) as [e'|] eqn:Hl; [done|].
    rewrite IH. split; [done|].
    destruct (Z.eqb_spec (vesselid x) (vesselid e)) as [Heq|]; [|done].
    apply last_of_None in Hl. rewrite Heq in Hex. done.
  - apply not_true_iff_false in Hex. rewrite existsb_vessel in Hex.
    rewrite elem_of_cons, IH.
    destruct (last_of (vesselid e) df) as [e'|] eqn:Hl.
    + split; [|by intros; right]. intros [->|?]; [|done].
      apply last_of_Some in Hl as [Hv Hin]. exfalso. apply Hex.
      rewrite <- Hv. by apply list_elem_of_fmap_2.
    + destruct (Z.eqb_spec (vesselid x) (vesselid e)) as [Heq|Hne].
      * split; [by intros [->|?]|]. intros [= ->]. by left.
      * split; [|done]. intros [->|?]; done.
Qed.

Lemma groupby_tail1_vessels df v :
  v ∈ vesselid <$> groupby_tail1 df ↔ v ∈ vesselid <$> df.
Proof.
  rewrite list_elem_of_fmap. split.
  - intros (e & -> & Hin). apply groupby_tail1_elem, last_of_Some in Hin.
    apply list_elem_of_fmap_2. tauto.
  - intros Hin. destruct (last_of v df) as [e|] eqn:Hl.
    + exists e. pose proof (last_of_Some _ _ _ Hl) as [Hv _].
      split; [done|]. apply groupby_tail1_elem. by rewrite Hv.
    + apply last_of_None in Hl. done.
Qed.

Lemma groupby_tail1_NoDup df : NoDup (vesselid <$> groupby_tail1 df).
Proof.
  induction df as [|x df IH]; simpl; [constructor|].
  destruct (existsb _ df) eqn:Hex; [done|].
  apply not_true_iff_false in Hex. rewrite existsb_vessel in Hex.
  rewrite fmap_cons. apply NoDup_cons. split; [|done].
  by rewrite groupby_tail1_vessels.
Qed.

(** After a sort that keeps tied rows in frame order, the last row of a
    vessel is its latest row, the later one of tied rows. *)
Lemma last_of_insert_sorted v x s :
  StronglySorted (ascending ts_ltb) s →
  last_of v (insert_sorted ts_ltb x s) =
    if vesselid x =? v then
      match last_of v s with
      | Some e' => if timestamp e' <? timestamp x then Some x else Some e'
      | None => Some x
      end
    else last_of v s.
Proof.
  induction 1 as [|y s Hs IH Hy]; simpl.
  - by destruct (vesselid x =? v).
  - unfold ts_ltb at 1. destruct (Z.ltb_spec (timestamp y) (timestamp x)) as [Hlt|Hge].
    + simpl. rewrite IH. destruct (vesselid x =? v); [|done].
      destruct (last_of v s) as [e'|]; [by destruct (timestamp e' <? timestamp x)|].
      destruct (vesselid y =? v); [|done].
      by rewrite (proj2 (Z.ltb_lt _ _) Hlt).
    + simpl. destruct (vesselid x =? v) eqn:Hx.
      * assert (∀ e', last_of v (y :: s) = Some e' →
                      (timestamp e' <? timestamp x) = false) as Hlow.
        { intros e' [_ Hin]%last_of_Some. apply Z.ltb_ge.
          apply elem_of_cons in Hin as [->|Hin]; [done|].
          rewrite Forall_forall in Hy. apply Hy, ts_ascending_le in Hin. lia. }
        simpl in Hlow.
        destruct (last_of v s) as [e'|].
        { by rewrite (Hlow e'). }
        destruct (vesselid y =? v); [|done].
        by rewrite (Hlow y).
      * by destruct (last_of v s); [|destruct (vesselid y =? v)].
Qed.

Lemma last_of_sort_by v df : last_of v (sort_by ts_ltb df) = latest_of v df.
Proof.
  induction df as [|x df IH]; [done|].
  change (sort_by ts_ltb (x :: df))
    with (insert_sorted ts_ltb x (sort_by ts_ltb df)).
  rewrite last_of_insert_sorted
    by apply (sort_by_ascending ts_ltb ts_ltb_asym ts_ascending_trans).
  simpl. by rewrite IH.
Qed.

Lemma latest_of_None v df : latest_of v df = None → v ∉ vesselid <$> df.
Proof.
  induction df as [|x df IH]; simpl; [intros _; apply not_elem_of_nil|].
  destruct (Z.eqb_spec (vesselid x) v) as [Heq|Hne].
  - destruct (latest_of v df) as [e'|]; [|done].
    by destruct (timestamp e' <? timestamp x).
  - intros Hn. apply not_elem_of_cons. split; [done|by apply IH].
Qed.

Lemma latest_of_latest_at v df e : latest_of v df = Some e → latest_at v df e.
Proof.
  revert e. induction df as [|x df IH]; simpl; [done|]. intros e.
  destruct (Z.eqb_spec (vesselid x) v) as [Heq|Hne].
  - destruct (latest_of v df) as [e'|] eqn:Hl.
    + destruct (IH e' eq_refl) as (b & a & -> & Hv & Hb & Ha).
      destruct (Z.ltb_spec (timestamp e') (timestamp x)) as [Hlt|Hge];
        intros [= <-].
      * exists [], (b ++ e' :: a). repeat split; [done|by intros ? ?%elem_of_nil|].
        intros e'' Hin Hv''. apply elem_of_app in Hin as [Hin|Hin].
        { specialize (Hb _ Hin Hv''). lia. }
        apply elem_of_cons in Hin as [->|Hin]; [done|].
        specialize (Ha _ Hin Hv''). lia.
      * exists (x :: b), a. repeat split; [done| |done].
        intros e'' Hin Hv''. apply elem_of_cons in Hin as [->|Hin]; [lia|].
        by apply Hb.
    + intros [= <-]. apply latest_of_None in Hl.
      exists [], df. repeat split; [done|by intros ? ?%elem_of_nil|].
      intros e' Hin Hv'. exfalso. apply Hl. rewrite <- Hv'.
      by apply list_elem_of_fmap_2.
  - intros He. destruct (IH e He) as (b & a & -> & Hv & Hb & Ha).
    exists (x :: b), a. repeat split; [done| |done].
    intros e'' Hin Hv''. apply elem_of_cons in Hin as [->|Hin]; [done|].
    by apply Hb.
Qed.

Lemma reduce_vessels df v :
  v ∈ vesselid <$> reduce df ↔ v ∈ vesselid <$> df.
Proof.
  unfold reduce. rewrite groupby_tail1_vessels.
  by rewrite (sort_values_perm df).
Qed.

Lemma StronglySorted_impl {A} (R1 R2 : A → A → Prop) l :
  (∀ x y, R1 x y → R2 x y) → StronglySorted R1 l → StronglySorted R2 l.
Proof.
  intros Himpl. induction 1 as [|x l Hs IH Hx]; constructor; [done|].
  eapply Forall_impl; [exact Hx|]. intros y. apply Himpl.
Qed.

Lemma groupby_tail1_subset df e : e ∈ groupby_tail1 df → e ∈ df.
Proof. intros He%groupby_tail1_elem. by apply last_of_Some in He as [_ ?]. Qed.

Lemma groupby_tail1_sublist df : groupby_tail1 df `sublist_of` df.
Proof.
  induction df as [|e df IH]; simpl; [constructor|].
  destruct (existsb _ df); [by apply sublist_cons|by apply sublist_skip].
Qed.

Lemma groupby_tail1_ascending df :
  StronglySorted (ascending ts_ltb) df →
  StronglySorted (ascending ts_ltb) (groupby_tail1 df).
Proof.
  induction 1 as [|e df Hs IH He]; simpl; [constructor|].
  destruct (existsb _ df); [done|]. constructor; [done|].
  rewrite Forall_forall in He. apply Forall_forall.
  intros e' He'. by apply He, groupby_tail1_subset.
Qed.

Lemma groupby_tail1_NoDup_id df :
  NoDup (vesselid <$> df) → groupby_tail1 df = df.
Proof.
  induction df as [|e df IH]; [done|].
  rewrite fmap_cons, NoDup_cons. intros [Hnin Hnd]. simpl.
  destruct (existsb _ df) eqn:Hex.
  - by apply existsb_vessel in Hex.
  - by rewrite IH.
Qed.

Lemma reduce_ascending df : StronglySorted (ascending ts_ltb) (reduce df).
Proof. apply groupby_tail1_ascending, sort_values_ascending. Qed.

(** A frame in strictly ascending order of timestamp is left as it is by
    the sort, and a frame that moreover has one row per vessel is its own
    reduction. *)
Lemma sort_values_sorted_id df :
  StronglySorted (λ a b, timestamp a < timestamp b) df → sort_values df = df.
Proof.
  intros Hsorted.
  apply sort_rows_strictly_sorted;
    [apply ts_ltb_asym|apply ts_ascending_trans|].
  eapply StronglySorted_impl; [|exact Hsorted].
  intros x y Hlt. simpl in Hlt. unfold ts_ltb. lia.
Qed.

Lemma reduce_strictly_ascending df :
  StronglySorted (λ a b, timestamp a < timestamp b) df →
  NoDup (vesselid <$> df) → reduce df = df.
Proof.
  intros Hsorted Hnd. unfold reduce.
  rewrite sort_values_sorted_id by done. by apply groupby_tail1_NoDup_id.
Qed.

(** ** Any ascending order of the snapshot *)

Lemma last_of_greatest v s e :
  StronglySorted (ascending ts_ltb) s → last_of v s = Some e →
  ∀ e', e' ∈ s → vesselid e' = v → timestamp e' ≤ timestamp e.
Proof.
  induction 1 as [|x s Hs IH Hx]; [done|]. simpl.
  rewrite Forall_forall in Hx.
  destruct (last_of v s) as [e0|] eqn:Hl.
  - intros [= ->] e' [->|Hin]%elem_of_cons Hv; [|by apply IH].
    apply ts_ascending_le, Hx. by apply last_of_Some in Hl as [_ ?].
  - destruct (Z.eqb_spec (vesselid x) v) as [Hxv|]; [|done].
    intros [= <-] e' [->|Hin]%elem_of_cons Hv; [done|].
    apply last_of_None in Hl. exfalso. apply Hl. rewrite <- Hv.
    by apply list_elem_of_fmap_2.
Qed.

(** One row per vessel and the greatest timestamp of the vessel do not
    depend on how the sort orders rows of equal timestamp: they hold for the
    last rows of any ascending arrangement of the snapshot. *)
Lemma groupby_tail1_any_sort df s :
  s ≡ₚ df → StronglySorted (ascending ts_ltb) s →
  NoDup (vesselid <$> groupby_tail1 s) ∧
  (∀ v, v ∈ vesselid <$> groupby_tail1 s ↔ v ∈ vesselid <$> df) ∧
  (∀ e, e ∈ groupby_tail1 s →
        e ∈ df ∧
        ∀ e', e' ∈ df → vesselid e' = vesselid e → timestamp e' ≤ timestamp e).
Proof.
  intros Hperm Hs. split; [apply groupby_tail1_NoDup|]. split.
  - intros v. by rewrite groupby_tail1_vessels, Hperm.
  - intros e He. apply groupby_tail1_elem in He.
    split.
    + rewrite <- Hperm. by apply last_of_Some in He as [_ ?].
    + intros e' He'. rewrite <- Hperm in He'.
      by apply (last_of_greatest _ s).
Qed.


(** ** New and resolved regions *)

Lemma elem_of_region_set run r : r ∈ region_set run ↔ has_region run r.
Proof.
  unfold region_set, has_region.
  rewrite elem_of_list_to_set, list_elem_of_fmap.
  split; intros (e & ? & ?); by exists e.
Qed.

Lemma elem_of_vessel_set run v : v ∈ vessel_set run ↔ v ∈ vesselid <$> run.
Proof. unfold vessel_set. by rewrite elem_of_list_to_set. Qed.

Lemma elem_of_new_regions current_run previous_run r :
  r ∈ new_regions current_run previous_run ↔
    has_region current_run r ∧ (r = None ∨ ¬ has_region previous_run r).
Proof.
  unfold new_regions.
  rewrite !elem_of_difference, !elem_of_region_set, elem_of_singleton.
  destruct (decide (r = None)); tauto.
Qed.

Lemma elem_of_resolved_regions current_run previous_run r :
  r ∈ resolved_regions current_run previous_run ↔
    has_region previous_run r ∧ (r = None ∨ ¬ has_region current_run r).
Proof.
  unfold resolved_regions.
  rewrite !elem_of_difference, !elem_of_region_set, elem_of_singleton.
  destruct (decide (r = None)); tauto.
Qed.

Lemma elem_of_new_regions_Some current_run previous_run name :
  Some name ∈ new_regions current_run previous_run ↔
    has_region current_run (Some name) ∧ ¬ has_region previous_run (Some name).
Proof.
  rewrite elem_of_new_regions. split; [|tauto]. by intros [? [?|?]].
Qed.

Lemma elem_of_resolved_regions_Some current_run previous_run name :
  Some name ∈ resolved_regions current_run previous_run ↔
    has_region previous_run (Some name) ∧ ¬ has_region current_run (Some name).
Proof.
  rewrite elem_of_resolved_regions. split; [|tauto]. by intros [? [?|?]].
Qed.

(** C2, as the code has it. The region sets hold the region of every row,
    the null region of a row included, and no null is kept apart. A named
    region is new when some current row has it and no previous row has it,
    and resolved when some previous row has it and no current row has it.
    The null of the current run is new whenever a current row has no
    region, and the null of the previous run is resolved whenever a
    previous row has no region, also when both runs have such rows: the two
    nulls are different objects. *)
Theorem region_sets_keep_null (current_run previous_run : DataFrame)
    (r : option string) (name : string) :
  (r ∈ region_set current_run ↔ has_region current_run r) ∧
  (Some name ∈ new_regions current_run previous_run ↔
     has_region current_run (Some name) ∧
     ¬ has_region previous_run (Some name)) ∧
  (Some name ∈ resolved_regions current_run previous_run ↔
     has_region previous_run (Some name) ∧
     ¬ has_region current_run (Some name)) ∧
  (None ∈ new_regions current_run previous_run ↔
     has_region current_run None) ∧
  (None ∈ resolved_regions current_run previous_run ↔
     has_region previous_run None).
Proof.
  split; [apply elem_of_region_set|].
  split; [apply elem_of_new_regions_Some|].
  split; [apply elem_of_resolved_regions_Some|].
  rewrite elem_of_new_regions, elem_of_resolved_regions. tauto.
Qed.

(** ** Deduplication agrees with the reduction *)

Lemma drop_duplicates_from_vessels seen df v :
  v ∈ vesselid <$> drop_duplicates_from seen df ↔
    ((v ∉ seen) ∧ v ∈ vesselid <$> df).
Proof.
  revert seen. induction df as [|e df IH]; intros seen; simpl.
  - split; [by intros ?%elem_of_nil|by intros [_ ?%elem_of_nil]].
  - destruct (decide (vesselid e ∈ seen)) as [Hin|Hnin].
    + rewrite IH, elem_of_cons. split; [tauto|].
      intros [Hv [->|?]]; tauto.
    + rewrite fmap_cons, !elem_of_cons, IH, not_elem_of_union,
        not_elem_of_singleton.
      destruct (decide (v = vesselid e)) as [->|]; tauto.
Qed.

Lemma drop_duplicates_from_NoDup seen df :
  NoDup (vesselid <$> drop_duplicates_from seen df).
Proof.
  revert seen. induction df as [|e df IH]; intros seen; simpl; [constructor|].
  destruct (decide (vesselid e ∈ seen)); [apply IH|].
  rewrite fmap_cons. apply NoDup_cons. split; [|apply IH].
  rewrite drop_duplicates_from_vessels, not_elem_of_union,
    not_elem_of_singleton. tauto.
Qed.

Lemma drop_duplicates_vessels df v :
  v ∈ vesselid <$> drop_duplicates df ↔ v ∈ vesselid <$> df.
Proof.
  unfold drop_duplicates. rewrite drop_duplicates_from_vessels.
  split; [tauto|]. split; [apply not_elem_of_empty|done].
Qed.

Lemma length_drop_duplicates df :
  length (drop_duplicates df) = size (vessel_set df).
Proof.
  rewrite <- (length_fmap vesselid).
  rewrite <- (size_list_to_set (C:=gset Z)) by apply drop_duplicates_from_NoDup.
  f_equal. apply set_eq. intros v.
  by rewrite elem_of_vessel_set, elem_of_list_to_set, drop_duplicates_vessels.
Qed.

Lemma length_reduce df : length (reduce df) = size (vessel_set df).
Proof.
  rewrite <- (length_fmap vesselid).
  rewrite <- (size_list_to_set (C:=gset Z)) by apply groupby_tail1_NoDup.
  f_equal. apply set_eq. intros v.
  by rewrite elem_of_vessel_set, elem_of_list_to_set, reduce_vessels.
Qed.

(** C10. Deduplicating a raw table on the vessel keeps the same vessels as
    the sort and take-last reduction: the two results have the same vessel
    set, that of the raw table, neither repeats a vessel, and they have the
    same number of rows, the number of distinct vessels. *)
Theorem drop_duplicates_agrees_with_reduce (df : DataFrame) :
  vessel_set (drop_duplicates df) = vessel_set (reduce df) ∧
  vessel_set (reduce df) = vessel_set df ∧
  NoDup (vesselid <$> drop_duplicates df) ∧
  NoDup (vesselid <$> reduce df) ∧
  length (drop_duplicates df) = length (reduce df) ∧
  length (reduce df) = size (vessel_set df).
Proof.
  split; [|split].
  - apply set_eq. intros v.
    by rewrite !elem_of_vessel_set, drop_duplicates_vessels, reduce_vessels.
  - apply set_eq. intros v. by rewrite !elem_of_vessel_set, reduce_vessels.
  - split; [apply drop_duplicates_from_NoDup|].
    split; [apply groupby_tail1_NoDup|].
    by rewrite length_drop_duplicates, length_reduce.
Qed.

(** ** First run *)

Lemma load_previous_off folder compare_prev :
  compare_prev = false ∨ (length (run_files folder) ≤ 1)%nat →
  load_previous folder compare_prev = Ok ([], true).
Proof.
  intros Hoff. unfold load_previous.
  destruct ((1 <? length (run_files folder))%nat && compare_prev) eqn:Hc; [|done].
  apply andb_true_iff in Hc as [Hlen ->]. apply Nat.ltb_lt in Hlen.
  destruct Hoff; [done|lia].
Qed.

Lemma load_previous_first_run folder compare_prev previous :
  load_previous folder compare_prev = Ok (previous, true) → previous = [].
Proof.
  unfold load_previous.
  destruct ((1 <? length (run_files folder))%nat && compare_prev).
  - destruct (run_files folder !! _) as [f|]; [|done].
    destruct (read_csv folder f); [|done]. intros [=].
  - by intros [= <-].
Qed.

(** C3. On a first run the sidebar shows no region or surge alert and the
    new-vessels button answers with the baseline notice, whatever the two
    states are; the previous state of a first run is the empty frame, against
    which every current vessel and region is new, and the count of new
    vessels is still computed for the key metrics. *)
Theorem first_run_suppresses_alerts (current_run previous_run : DataFrame)
    (folder : gmap string DataFrame) (compare_prev : bool) :
  smart_alerts true current_run previous_run = mkSidebar [] None ∧
  show_new_jammed_vessels true current_run previous_run = baseline_info ∧
  match load_previous folder compare_prev with
  | Ok (previous, true) => previous = []
  | _ => True
  end ∧
  new_vessels current_run [] = vessel_set current_run ∧
  new_regions current_run [] = region_set current_run ∧
  resolved_regions current_run [] = ∅ ∧
  kpi_metrics current_run [] =
    (size (vessel_set current_run), size (vessel_set current_run),
     size (region_set current_run)).
Proof.
  split; [done|]. split; [done|]. split.
  { destruct (load_previous folder compare_prev) as [[previous [|]]|] eqn:Hl;
      [|done..]. by eapply load_previous_first_run. }
  assert (new_vessels current_run [] = vessel_set current_run) as Hnew.
  { unfold new_vessels, vessel_set. simpl. apply set_eq. intros v.
    rewrite elem_of_difference. split; [tauto|].
    split; [done|apply not_elem_of_empty]. }
  split; [done|]. split; [|split].
  - apply set_eq. intros r.
    rewrite elem_of_new_regions, elem_of_region_set. split; [tauto|].
    intros Hr. split; [done|]. right.
    by intros (e & ?%elem_of_nil & _).
  - apply set_eq. intros r. rewrite elem_of_resolved_regions.
    split; [by intros [(e & ?%elem_of_nil & _) _]|by intros ?%not_elem_of_empty].
  - unfold kpi_metrics. by rewrite Hnew.
Qed.

(** C9. With the comparison switched off, or with at most one run file in
    the folder, the cycle takes the empty frame as previous run and sets
    [first_run]: no alert is shown and the stability metric is not shown,
    whatever files the folder holds. *)
Theorem no_comparison_is_first_run (folder : gmap string DataFrame)
    (compare_prev : bool) (df_current : DataFrame) :
  compare_prev = false ∨ (length (run_files folder) ≤ 1)%nat →
  compare_runs folder compare_prev df_current =
    Ok (mkComparison true [] [] None).
Proof.
  intros Hoff. unfold compare_runs.
  by rewrite (load_previous_off _ _ Hoff).
Qed.

(** ** Ratios *)

Lemma true_div_nonneg a b : 0 ≤ a → 0 < b → (0 <= true_div a b)%Q.
Proof.
  intros Ha Hb. unfold true_div. apply Qle_shift_div_l.
  - change 0%Q with (inject_Z 0). by rewrite <- Zlt_Qlt.
  - rewrite Qmult_0_l. change 0%Q with (inject_Z 0). by rewrite <- Zle_Qle.
Qed.

Lemma true_div_le_1 a b : a ≤ b → 0 < b → (true_div a b <= 1)%Q.
Proof.
  intros Ha Hb. unfold true_div. apply Qle_shift_div_r.
  - change 0%Q with (inject_Z 0). by rewrite <- Zlt_Qlt.
  - rewrite Qmult_1_l. by rewrite <- Zle_Qle.
Qed.

Lemma true_div_same a : 0 < a → (true_div a a == 1)%Q.
Proof.
  intros Ha. unfold true_div. apply Qmult_inv_r.
  intros Heq. unfold Qeq in Heq. simpl in Heq. lia.
Qed.

Lemma size_pos_iff `{Countable A} (X : gset A) : (0 < size X)%nat ↔ X ≠ ∅.
Proof.
  pose proof (size_non_empty_iff (C:=gset A) X) as Hne.
  unfold_leibniz. rewrite <- Hne. lia.
Qed.

(** C4. The stability of two states is the share of the previous regions
    still present, times 100, and 100 when the previous state has no
    region; it is defined for every pair of states (no division by zero),
    lies between 0 and 100, and is 100 for a state against itself and for
    any state against the empty state. *)
Theorem stability_pct_range (current_run previous_run : DataFrame) :
  let cur := region_set current_run in
  let prev := region_set previous_run in
  (stability_pct cur prev ==
     if decide (prev = ∅) then 100
     else inject_Z (Z.of_nat (size (cur ∩ prev)))
          / inject_Z (Z.of_nat (size prev)) * 100)%Q ∧
  (0 <= stability_pct cur prev)%Q ∧
  (stability_pct cur prev <= 100)%Q ∧
  (stability_pct cur cur == 100)%Q ∧
  (stability_pct cur (region_set []) == 100)%Q.
Proof.
  intros cur prev. split; [|split; [|split; [|split]]].
  - unfold stability_pct.
    destruct (decide (prev ≠ ∅)) as [Hne|He], (decide (prev = ∅)); done.
  - unfold stability_pct. destruct (decide (prev ≠ ∅)) as [Hne|He]; [|done].
    apply size_pos_iff in Hne.
    pose proof (true_div_nonneg (Z.of_nat (size (cur ∩ prev)))
                  (Z.of_nat (size prev))) as Hdiv.
    apply (Qmult_le_0_compat _ 100); [apply Hdiv; lia|done].
  - unfold stability_pct. destruct (decide (prev ≠ ∅)) as [Hne|He]; [|apply Qle_refl].
    apply size_pos_iff in Hne.
    assert (size (cur ∩ prev) ≤ size prev)%nat as Hsub.
    { apply subseteq_size. apply intersection_subseteq_r. }
    pose proof (true_div_le_1 (Z.of_nat (size (cur ∩ prev)))
                  (Z.of_nat (size prev))) as Hdiv.
    apply Qle_trans with (1 * 100)%Q; [|done].
    apply Qmult_le_compat_r; [apply Hdiv; lia|done].
  - unfold stability_pct. destruct (decide (cur ≠ ∅)) as [Hne|He]; [|done].
    apply size_pos_iff in Hne.
    replace (cur ∩ cur) with cur by (apply set_eq; intros r; rewrite elem_of_intersection; tauto).
    rewrite true_div_same by lia. reflexivity.
  - done.
Qed.

(** ** Vessel surge *)

Lemma say_without_null kind regions sb :
  None ∉ regions → raised sb = None →
  (∀ names pct, kind names ≠ error pct) →
  raised (say kind regions sb) = None ∧
  (∀ pct, error pct ∈ shown (say kind regions sb) ↔ error pct ∈ shown sb).
Proof.
  intros Hnull Hraised Hkind. unfold say, join. rewrite Hraised.
  destruct (decide (regions = ∅)); [done|].
  destruct (decide (None ∈ regions)); [done|]. simpl.
  split; [done|]. intros pct. rewrite elem_of_app, list_elem_of_singleton.
  split; [|tauto]. intros [?|Heq]; [done|]. symmetry in Heq. by apply Hkind in Heq.
Qed.

Lemma surge_shown_iff (cur prev : gset Z) sb :
  raised sb = None → (∀ pct, error pct ∉ shown sb) →
  surge_shown (surge cur prev sb) ↔
    (0 < size prev < size cur)%nat ∧ (10 < increase_pct cur prev)%Q.
Proof.
  intros Hraised Hnone. unfold surge, surge_shown. rewrite Hraised.
  destruct (bool_decide (prev ≠ ∅)) eqn:Hprev; simpl.
  - apply bool_decide_eq_true, size_pos_iff in Hprev.
    destruct (Nat.ltb_spec (size prev) (size cur)) as [Hlt|Hge].
    + destruct (Qle_bool (increase_pct cur prev) 10) eqn:Hle; simpl.
      * apply Qle_bool_iff in Hle. split.
        { intros [pct Hin]. by apply Hnone in Hin. }
        intros [_ Hpct]. by apply Qlt_not_le in Hpct.
      * split.
        { intros _. split; [done|]. apply Qnot_le_lt. intros Hle'.
          apply Qle_bool_iff in Hle'. congruence. }
        intros _. eexists. apply elem_of_app. right. apply list_elem_of_here.
    + split.
      { intros [pct Hin]. by apply Hnone in Hin. }
      intros [? _]. lia.
  - apply bool_decide_eq_false in Hprev.
    split.
    { intros [pct Hin]. by apply Hnone in Hin. }
    intros [[Hpos _] _]. apply size_pos_iff in Hpos. done.
Qed.

(** When no row of either run has a null region, the surge alert is shown
    exactly when the previous run has vessels, the current run has more,
    and the increase, as the float the script computes, exceeds 10. *)
Lemma smart_alerts_surge current_run previous_run :
  ¬ has_region current_run None → ¬ has_region previous_run None →
  let sb := smart_alerts false current_run previous_run in
  raised sb = None ∧
  (surge_shown sb ↔
     (0 < size (vessel_set previous_run) < size (vessel_set current_run))%nat ∧
     (10 < increase_pct (vessel_set current_run) (vessel_set previous_run))%Q).
Proof.
  intros Hcur Hprev. cbn zeta. unfold smart_alerts.
  destruct (say_without_null warning
              (new_regions current_run previous_run) (mkSidebar [] None))
    as [Hr1 Hs1]; [|done|done|].
  { rewrite elem_of_new_regions. tauto. }
  destruct (say_without_null success
              (resolved_regions current_run previous_run)
              (say warning (new_regions current_run previous_run)
                 (mkSidebar [] None)))
    as [Hr2 Hs2]; [|done|done|].
  { rewrite elem_of_resolved_regions. tauto. }
  split.
  - unfold surge. rewrite Hr2.
    by repeat match goal with |- context [if ?b then _ else _] => destruct b end.
  - apply surge_shown_iff; [done|].
    intros pct. rewrite Hs2, Hs1. apply not_elem_of_nil.
Qed.

(** C6, on the code. The spec scenario with a null region on the two new
    vessels: the previous run has vessels 1, 2, 3 and the current run has
    1, 2, 4, 5, an increase of a third, yet [join] raises on the null new
    region and the sidebar block ends before the surge check; no surge
    alert is shown. *)
Theorem surge_lost_on_null_region :
  let previous_run := reduce [mkEvent 1 (Some "EEZ_A") 10 None None;
                              mkEvent 2 (Some "EEZ_A") 11 None None;
                              mkEvent 3 (Some "EEZ_A") 12 None None] in
  let current_run := reduce [mkEvent 1 (Some "EEZ_A") 20 None None;
                             mkEvent 2 (Some "EEZ_A") 21 None None;
                             mkEvent 4 None 22 None None;
                             mkEvent 5 None 23 None None] in
  (0 < size (vessel_set previous_run))%nat ∧
  (10 < increase_pct (vessel_set current_run) (vessel_set previous_run))%Q ∧
  smart_alerts false current_run previous_run = mkSidebar [] (Some TypeError) ∧
  ¬ surge_shown (smart_alerts false current_run previous_run).
Proof.
  cbn zeta.
  rewrite !reduce_strictly_ascending by frame_in_order.
  split; [vm_compute; lia|]. split; [by vm_compute|].
  assert (smart_alerts false
            [mkEvent 1 (Some "EEZ_A") 20 None None;
             mkEvent 2 (Some "EEZ_A") 21 None None;
             mkEvent 4 None 22 None None;
             mkEvent 5 None 23 None None]
            [mkEvent 1 (Some "EEZ_A") 10 None None;
             mkEvent 2 (Some "EEZ_A") 11 None None;
             mkEvent 3 (Some "EEZ_A") 12 None None]
          = mkSidebar [] (Some TypeError)) as Heq by (by vm_compute).
  split; [done|]. rewrite Heq. intros [pct Hin]. by apply elem_of_nil in Hin.
Qed.

(** The same scenario with region EEZ_B on the new vessels shows the
    region alert and the surge alert of 33%: the increase is the float
    33.33333333333333, just below a third of 100. *)
Example surge_scenario :
  let previous_run := reduce [mkEvent 1 (Some "EEZ_A") 10 None None;
                              mkEvent 2 (Some "EEZ_A") 11 None None;
                              mkEvent 3 (Some "EEZ_A") 12 None None] in
  let current_run := reduce [mkEvent 1 (Some "EEZ_A") 20 None None;
                             mkEvent 2 (Some "EEZ_A") 21 None None;
                             mkEvent 4 (Some "EEZ_B") 22 None None;
                             mkEvent 5 (Some "EEZ_B") 23 None None] in
  smart_alerts false current_run previous_run =
    mkSidebar [warning {["EEZ_B"]}; error 33] None ∧
  (increase_pct (vessel_set current_run) (vessel_set previous_run) ==
     2345624805922133 # 70368744177664)%Q.
Proof.
  cbn zeta.
  rewrite !reduce_strictly_ascending by frame_in_order.
  repeat split; by vm_compute.
Qed.

(** ** Event persistence *)

Lemma groupby_size_lookup df v :
  groupby_size df !! v =
    if decide (rows_of v df = 0%nat) then None else Some (rows_of v df).
Proof.
  unfold rows_of. induction df as [|e df IH]; [done|].
  change (groupby_size (e :: df)) with
    (<[vesselid e := S (default 0%nat (groupby_size df !! vesselid e))]>
       (groupby_size df)).
  rewrite filter_cons.
  destruct (decide (vesselid e = v)) as [->|Hne].
  - rewrite lookup_insert_eq. simpl. rewrite IH.
    by destruct (decide (length (filter (λ e, vesselid e = v) df) = 0%nat))
      as [->|].
  - by rewrite lookup_insert_ne.
Qed.

Lemma rows_of_app v df1 df2 : rows_of v (df1 ++ df2) = (rows_of v df1 + rows_of v df2)%nat.
Proof. unfold rows_of. by rewrite filter_app, length_app. Qed.

Lemma rows_of_absent v df : v ∉ vesselid <$> df → rows_of v df = 0%nat.
Proof.
  unfold rows_of. induction df as [|e df IH]; [done|].
  rewrite fmap_cons, not_elem_of_cons, filter_cons. intros [Hne Hnin].
  destruct (decide (vesselid e = v)); [done|]. by apply IH.
Qed.

(** In a frame with one row per vessel, a vessel has one row or none. *)
Lemma rows_of_NoDup v df :
  NoDup (vesselid <$> df) →
  rows_of v df = if decide (v ∈ vesselid <$> df) then 1%nat else 0%nat.
Proof.
  induction df as [|e df IH]; [done|].
  rewrite fmap_cons, NoDup_cons. intros [Hnin Hnd].
  change (e :: df) with ([e] ++ df). rewrite rows_of_app, (IH Hnd).
  unfold rows_of at 1. rewrite filter_cons, filter_nil. simpl.
  destruct (decide (vesselid e = v)) as [<-|Hne];
    repeat case_decide; try done; exfalso;
    repeat match goal with
    | H : _ ∈ _ :: _ |- _ => apply elem_of_cons in H as [?|?]
    | H : _ ∉ _ :: _ |- _ => apply not_elem_of_cons in H as [? ?]
    end; subst; done.
Qed.

Lemma rows_of_window v (window : list DataFrame) :
  rows_of v (concat (drop_duplicates <$> window)) = appearances v window.
Proof.
  unfold appearances. induction window as [|df window IH]; [done|].
  rewrite fmap_cons. simpl. rewrite rows_of_app, IH, filter_cons.
  rewrite rows_of_NoDup by apply drop_duplicates_from_NoDup.
  destruct (decide (v ∈ vesselid <$> df)) as [Hin|Hnin].
  - by rewrite decide_True by by apply drop_duplicates_vessels.
  - rewrite decide_False; [done|]. by rewrite drop_duplicates_vessels.
Qed.

Lemma appearances_pos v (window : list DataFrame) :
  (0 < appearances v window)%nat ↔ ∃ df, df ∈ window ∧ v ∈ vesselid <$> df.
Proof.
  unfold appearances. split.
  - intros Hpos.
    destruct (filter (λ df, v ∈ vesselid <$> df) window) as [|df l] eqn:Hf;
      [simpl in Hpos; lia|].
    assert (df ∈ filter (λ df, v ∈ vesselid <$> df) window) as Hin
      by (rewrite Hf; apply list_elem_of_here).
    apply list_elem_of_filter in Hin as [? ?]. by exists df.
  - intros (df & Hin & Hv).
    assert (df ∈ filter (λ df, v ∈ vesselid <$> df) window) as Hin'
      by by apply list_elem_of_filter.
    destruct (filter _ window); [by apply elem_of_nil in Hin'|simpl; lia].
Qed.

Lemma appearances_le v (window : list DataFrame) :
  (appearances v window ≤ length window)%nat.
Proof. apply length_filter. Qed.

Lemma appearances_perm v (w1 w2 : list DataFrame) :
  w1 ≡ₚ w2 → appearances v w1 = appearances v w2.
Proof. unfold appearances. by intros ->. Qed.

Lemma persistence_lookup (window : list DataFrame) :
  window ≠ [] →
  ∃ counts, persistence window = Ok counts ∧
    ∀ v, counts !! v =
      if decide (appearances v window = 0%nat) then None
      else Some (appearances v window).
Proof.
  intros Hne. unfold persistence.
  destruct window as [|df window]; [done|].
  eexists. split; [reflexivity|].
  intros v. by rewrite groupby_size_lookup, rows_of_window.
Qed.

(** C5. For a vessel occurring in some run of the window, the persistence
    table is produced and gives the vessel the number of runs of the window
    that contain it, a number between 1 and the window size; the table has
    an entry exactly for the vessels occurring in the window, and every
    reordering of the window produces the same table. *)
Theorem persistence_counts (window : list DataFrame) (v : Z) (df : DataFrame) :
  df ∈ window → v ∈ vesselid <$> df →
  ∃ counts,
    persistence window = Ok counts ∧
    counts !! v = Some (appearances v window) ∧
    (1 ≤ appearances v window ≤ length window)%nat ∧
    (∀ u, is_Some (counts !! u) ↔ ∃ df', df' ∈ window ∧ u ∈ vesselid <$> df') ∧
    (∀ window', window' ≡ₚ window → persistence window' = Ok counts).
Proof.
  intros Hdf Hv.
  assert (window ≠ []) as Hne by (intros ->; by apply elem_of_nil in Hdf).
  destruct (persistence_lookup window Hne) as (counts & Hp & Hlook).
  assert (0 < appearances v window)%nat as Hpos
    by (apply appearances_pos; by exists df).
  exists counts. split; [done|]. split; [|split; [|split]].
  - rewrite Hlook. by rewrite decide_False by lia.
  - split; [lia|apply appearances_le].
  - intros u. rewrite <- appearances_pos, Hlook.
    destruct (decide (appearances u window = 0%nat)) as [->|].
    + split; [by intros [? ?]|lia].
    + split; [lia|by eexists].
  - intros window' Hperm.
    assert (window' ≠ []) as Hne'.
    { intros ->. by apply Permutation_nil_l in Hperm. }
    destruct (persistence_lookup window' Hne') as (counts' & -> & Hlook').
    f_equal. apply map_eq. intros u.
    by rewrite Hlook, Hlook', (appearances_perm u _ _ Hperm).
Qed.

(** The scenario of the spec: vessel 7 occurs in the first and the third
    of three runs. *)
Lemma persistence_counts_witness :
  let run1 := [mkEvent 7 (Some "EEZ_A") 1 None None;
               mkEvent 7 (Some "EEZ_A") 2 None None] in
  let run2 := [mkEvent 8 (Some "EEZ_A") 3 None None] in
  let run3 := [mkEvent 8 None 4 None None; mkEvent 7 None 5 None None] in
  ∃ counts,
    persistence [run1; run2; run3] = Ok counts ∧
    counts !! 7 = Some (appearances 7 [run1; run2; run3]) ∧
    (1 ≤ appearances 7 [run1; run2; run3] ≤ length [run1; run2; run3])%nat ∧
    (∀ u, is_Some (counts !! u) ↔
            ∃ df', df' ∈ [run1; run2; run3] ∧ u ∈ vesselid <$> df') ∧
    (∀ window', window' ≡ₚ [run1; run2; run3] →
                persistence window' = Ok counts).
Proof.
  cbn zeta.
  apply (persistence_counts _ 7 [mkEvent 7 (Some "EEZ_A") 1 None None;
                                  mkEvent 7 (Some "EEZ_A") 2 None None]).
  - apply list_elem_of_here.
  - apply list_elem_of_here.
Defined.

Example persistence_scenario :
  appearances 7 [[mkEvent 7 None 1 None None]; [mkEvent 8 None 3 None None];
                 [mkEvent 8 None 4 None None; mkEvent 7 None 5 None None]] = 2%nat.
Proof. reflexivity. Qed.

(** ** Orders on datetimes and strings *)

Lemma lex_Eq_r c : lex c Eq = c.
Proof. by destruct c. Qed.

Lemma list_compare_antisym l1 l2 :
  list_compare l1 l2 = CompOpp (list_compare l2 l1).
Proof.
  revert l2. induction l1 as [|x l1 IH]; intros [|y l2]; simpl; try done.
  rewrite (Z.compare_antisym y x), (IH l2).
  by destruct (y ?= x).
Qed.

Lemma list_compare_eq l1 l2 : list_compare l1 l2 = Eq → l1 = l2.
Proof.
  revert l2. induction l1 as [|x l1 IH]; intros [|y l2]; simpl; try done.
  destruct (Z.compare_spec x y) as [->| |]; simpl; try done.
  intros ?%IH. by f_equal.
Qed.

Lemma list_compare_refl l : list_compare l l = Eq.
Proof. induction l as [|x l IH]; simpl; [done|]. by rewrite Z.compare_refl. Qed.

Lemma list_compare_trans l1 l2 l3 :
  list_compare l1 l2 ≠ Gt → list_compare l2 l3 ≠ Gt → list_compare l1 l3 ≠ Gt.
Proof.
  revert l2 l3.
  induction l1 as [|x l1 IH]; intros [|y l2] [|z l3]; simpl; try done.
  destruct (Z.compare_spec x y) as [->|Hxy|Hxy]; simpl; [|intros _|done].
  - destruct (Z.compare_spec y z) as [->|Hyz|Hyz]; simpl; [apply IH|done..].
  - destruct (Z.compare_spec y z) as [->|Hyz|Hyz]; simpl; [|intros _|done].
    + intros _. by rewrite (proj2 (Z.compare_lt_iff _ _) Hxy).
    + by rewrite (proj2 (Z.compare_lt_iff x z)) by lia.
Qed.

Lemma dt_compare_fields a b :
  dt_compare a b = list_compare (dt_fields a) (dt_fields b).
Proof. unfold dt_compare, dt_fields. simpl. by rewrite lex_Eq_r. Qed.

Lemma dt_fields_inj a b : dt_fields a = dt_fields b → a = b.
Proof. destruct a, b. unfold dt_fields. simpl. by intros [= -> -> -> -> -> -> ->]. Qed.

Lemma dt_compare_eq a b : dt_compare a b = Eq → a = b.
Proof. rewrite dt_compare_fields. by intros ?%list_compare_eq%dt_fields_inj. Qed.

Lemma dt_compare_antisym a b : dt_compare a b = CompOpp (dt_compare b a).
Proof. rewrite !dt_compare_fields. apply list_compare_antisym. Qed.

Lemma dt_ascending a b : ascending dt_ltb a b ↔ dt_compare a b ≠ Gt.
Proof.
  unfold ascending, dt_ltb. rewrite (dt_compare_antisym a b).
  destruct (dt_compare b a); simpl; split; congruence.
Qed.

Lemma dt_ltb_asym a b : dt_ltb a b = true → dt_ltb b a = false.
Proof.
  unfold dt_ltb. rewrite (dt_compare_antisym b a). by destruct (dt_compare a b).
Qed.

Lemma dt_ascending_trans a b c :
  ascending dt_ltb a b → ascending dt_ltb b c → ascending dt_ltb a c.
Proof.
  rewrite !dt_ascending, !dt_compare_fields. apply list_compare_trans.
Qed.

Lemma string_compare_code_points s t :
  String.compare s t = list_compare (code_points s) (code_points t).
Proof.
  revert t. induction s as [|a s IH]; intros [|b t]; simpl; try done.
  rewrite IH. unfold Ascii.compare. rewrite N2Z.inj_compare.
  by destruct (N_of_ascii a ?= N_of_ascii b)%N.
Qed.

Lemma code_points_inj s t : code_points s = code_points t → s = t.
Proof.
  revert t. induction s as [|a s IH]; intros [|b t]; simpl; try done.
  intros [= Hc Hs]. apply N2Z.inj in Hc.
  f_equal; [|by apply IH].
  by rewrite <- (ascii_N_embedding a), <- (ascii_N_embedding b), Hc.
Qed.

Lemma string_ascending s t : ascending String.ltb s t ↔ String.compare s t ≠ Gt.
Proof.
  unfold ascending, String.ltb. rewrite (String.compare_antisym s t).
  destruct (String.compare t s); simpl; split; congruence.
Qed.

Lemma string_ltb_asym s t : String.ltb s t = true → String.ltb t s = false.
Proof.
  unfold String.ltb. rewrite (String.compare_antisym s t).
  by destruct (String.compare t s).
Qed.

Lemma string_ascending_trans s t u :
  ascending String.ltb s t → ascending String.ltb t u → ascending String.ltb s u.
Proof.
  rewrite !string_ascending, !string_compare_code_points.
  apply list_compare_trans.
Qed.

Lemma string_ascending_antisym s t :
  ascending String.ltb s t → ascending String.ltb t s → s = t.
Proof.
  rewrite !string_ascending, (String.compare_antisym t s).
  destruct (String.compare s t) eqn:Hc; try done.
  intros _ _. rewrite string_compare_code_points in Hc.
  by apply list_compare_eq, code_points_inj in Hc.
Qed.

(** ** Trend *)

Lemma run_time_ltb_asym a b : run_time_ltb a b = true → run_time_ltb b a = false.
Proof. apply dt_ltb_asym. Qed.

Lemma run_time_ascending_trans a b c :
  ascending run_time_ltb a b → ascending run_time_ltb b c →
  ascending run_time_ltb a c.
Proof. apply dt_ascending_trans. Qed.

Lemma run_time_ascending a b : ascending run_time_ltb a b ↔ run_time_le a b.
Proof. apply dt_ascending. Qed.

Lemma trend_data_points (window : list (datetime * DataFrame)) :
  (λ '(t, df), mkTrendRow t (length (drop_duplicates df))) <$> window =
  trend_point <$> window.
Proof.
  apply list_fmap_ext. intros _ [t df] _. unfold trend_point. simpl.
  by rewrite length_drop_duplicates, length_reduce.
Qed.

Lemma buildTrend_points (window : list (datetime * DataFrame)) :
  window ≠ [] →
  buildTrend window = Ok (sort_rows run_time_ltb (trend_point <$> window)).
Proof.
  intros Hne. unfold buildTrend. rewrite trend_data_points.
  by destruct window.
Qed.

Lemma NoDup_fst_inj {K V} (l : list (K * V)) p q :
  NoDup (fst <$> l) → p ∈ l → q ∈ l → p.1 = q.1 → p = q.
Proof.
  induction l as [|r l IH]; [by intros _ ?%elem_of_nil|].
  rewrite fmap_cons, NoDup_cons. intros [Hnin Hnd] Hp Hq Heq.
  apply elem_of_cons in Hp as [->|Hp]; apply elem_of_cons in Hq as [->|Hq].
  - done.
  - exfalso. apply Hnin. rewrite Heq. by apply list_elem_of_fmap_2.
  - exfalso. apply Hnin. rewrite <- Heq. by apply list_elem_of_fmap_2.
  - by apply IH.
Qed.

(** A frame built from no rows has no [run_time] column and sorting it
    raises; the script builds the trend after a run was saved, from at
    least one file. *)
Lemma buildTrend_empty_window : buildTrend [] = Raise KeyError.
Proof. reflexivity. Qed.

(** C7. For a window of at least one run, as the script builds it, the
    trend is produced and has exactly one row per run of the window,
    carrying the run time and the size of the run's reduced state; its rows
    are in ascending order of run time whatever the order of the window.
    When the run times of the window are distinct, as those read from the
    names of distinct run files are, the window sorted on its timestamps
    gives the same trend, and so does every reordering of the window. *)
Theorem buildTrend_sorted (window : list (datetime * DataFrame)) :
  window ≠ [] →
  ∃ rows,
    buildTrend window = Ok rows ∧
    rows ≡ₚ trend_point <$> window ∧
    length rows = length window ∧
    StronglySorted run_time_le rows ∧
    (NoDup (fst <$> window) →
       buildTrend (sort_window window) = Ok rows ∧
       ∀ window', window' ≡ₚ window → buildTrend window' = Ok rows).
Proof.
  intros Hne. exists (sort_rows run_time_ltb (trend_point <$> window)).
  split; [by apply buildTrend_points|].
  split; [apply sort_rows_perm|].
  split; [by rewrite sort_rows_length, length_fmap|].
  assert (∀ l, StronglySorted run_time_le (sort_rows run_time_ltb l)) as Hsorted.
  { intros l. eapply StronglySorted_impl;
      [|apply (sort_rows_ascending run_time_ltb);
        [apply run_time_ltb_asym|apply run_time_ascending_trans]].
    intros a b. apply run_time_ascending. }
  split; [apply Hsorted|]. intros Hnd.
  assert (∀ window', window' ≡ₚ window →
            buildTrend window' =
              Ok (sort_rows run_time_ltb (trend_point <$> window))) as Hany.
  { intros window' Hperm.
    rewrite buildTrend_points.
    2:{ intros ->. by apply Permutation_nil_l in Hperm. }
    f_equal. apply (StronglySorted_unique_strong run_time_le); [|apply Hsorted..|].
    - intros a b Ha Hb Hab Hba.
      rewrite sort_rows_perm, Hperm in Ha. rewrite sort_rows_perm in Hb.
      apply list_elem_of_fmap in Ha as (p & -> & Hp).
      apply list_elem_of_fmap in Hb as (q & -> & Hq).
      f_equal. apply (NoDup_fst_inj window); [done..|].
      unfold run_time_le in Hab, Hba. simpl in Hab, Hba.
      rewrite (dt_compare_antisym q.1 p.1) in Hba.
      destruct (dt_compare p.1 q.1) eqn:Hc; try done.
      by apply dt_compare_eq.
    - by rewrite !sort_rows_perm, Hperm. }
  split; [|done]. apply Hany. apply sort_by_perm.
Qed.

(** ** File names *)

Lemma zero_pad_app w n rest s :
  zero_pad w n rest +:+ s = zero_pad w n (rest +:+ s).
Proof.
  revert n rest. induction w as [|w IH]; intros n rest; simpl; [done|].
  by rewrite IH.
Qed.

Lemma zero_pad_length w n rest :
  String.length (zero_pad w n rest) = (w + String.length rest)%nat.
Proof.
  revert n rest. induction w as [|w IH]; intros n rest; simpl; [done|].
  rewrite IH. simpl. lia.
Qed.

Lemma pow10_div w a :
  0 ≤ a < 10 ^ Z.of_nat (S w) → 0 ≤ a / 10 < 10 ^ Z.of_nat w.
Proof.
  rewrite Nat2Z.inj_succ, Z.pow_succ_r by lia. intros [Hlo Hhi].
  split; [by apply Z.div_pos|]. apply Z.div_lt_upper_bound; lia.
Qed.

Lemma N_of_digit n : 0 ≤ n < 10 → N_of_ascii (digit n) = (48 + Z.to_N n)%N.
Proof. intros Hn. unfold digit. apply N_ascii_embedding. lia. Qed.

Lemma digit_compare x y :
  0 ≤ x < 10 → 0 ≤ y < 10 → Ascii.compare (digit x) (digit y) = (x ?= y).
Proof.
  intros Hx Hy. unfold Ascii.compare. rewrite !N_of_digit by done.
  rewrite <- N2Z.inj_compare, !N2Z.inj_add, !Z2N.id by lia.
  destruct (Z.compare_spec x y) as [->| |].
  - apply Z.compare_refl.
  - apply Z.compare_lt_iff. lia.
  - apply Z.compare_gt_iff. lia.
Qed.

Lemma lex_div10 a b c :
  lex (a / 10 ?= b / 10) (lex (a mod 10 ?= b mod 10) c) = lex (a ?= b) c.
Proof.
  pose proof (Z.div_mod a 10 ltac:(lia)) as Ha.
  pose proof (Z.div_mod b 10 ltac:(lia)) as Hb.
  destruct (Z.compare_spec (a / 10) (b / 10)),
    (Z.compare_spec (a mod 10) (b mod 10)),
    (Z.compare_spec a b); simpl; try done; exfalso;
    pose proof (Z.mod_pos_bound a 10 ltac:(lia));
    pose proof (Z.mod_pos_bound b 10 ltac:(lia)); lia.
Qed.

(** Zero-padded numbers of one width compare as the numbers do. *)
Lemma zero_pad_compare w a b s t :
  0 ≤ a < 10 ^ Z.of_nat w → 0 ≤ b < 10 ^ Z.of_nat w →
  String.compare (zero_pad w a s) (zero_pad w b t) =
    lex (a ?= b) (String.compare s t).
Proof.
  revert a b s t. induction w as [|w IH]; intros a b s t Ha Hb.
  - simpl in *. assert (a = 0) as -> by lia. by assert (b = 0) as -> by lia.
  - cbn [zero_pad]. rewrite IH by by apply pow10_div.
    cbn [String.compare].
    rewrite digit_compare by (apply Z.mod_pos_bound; lia).
    rewrite <- (lex_div10 a b (String.compare s t)).
    by destruct (a mod 10 ?= b mod 10).
Qed.

Lemma parse_digit_digit n : 0 ≤ n < 10 → parse_digit (digit n) = Some n.
Proof.
  intros Hn. unfold parse_digit. rewrite N_of_digit by done.
  rewrite andb_true_intro by (split; apply N.leb_le; lia).
  f_equal. lia.
Qed.

Lemma read_digits_app w1 w2 acc s :
  read_digits (w1 + w2) acc s =
    match read_digits w1 acc s with
    | Some (acc', s') => read_digits w2 acc' s'
    | None => None
    end.
Proof.
  revert acc s. induction w1 as [|w1 IH]; intros acc s; simpl; [done|].
  destruct s as [|c s]; [done|]. destruct (parse_digit c); [apply IH|done].
Qed.

Lemma read_digits_zero_pad w acc n rest :
  0 ≤ n < 10 ^ Z.of_nat w →
  read_digits w acc (zero_pad w n rest) = Some (acc * 10 ^ Z.of_nat w + n, rest).
Proof.
  revert n rest. induction w as [|w IH]; intros n rest Hn.
  - simpl in *. do 2 f_equal. lia.
  - replace (S w) with (w + 1)%nat at 1 by lia. cbn [zero_pad].
    rewrite read_digits_app, IH by by apply pow10_div.
    simpl read_digits. rewrite parse_digit_digit by (apply Z.mod_pos_bound; lia).
    do 2 f_equal. rewrite Nat2Z.inj_succ, Z.pow_succ_r by lia.
    pose proof (Z.div_mod n 10 ltac:(lia)). lia.
Qed.

Lemma days_in_month_le y m : days_in_month y m ≤ 31.
Proof.
  unfold days_in_month.
  repeat match goal with |- context [if ?b then _ else _] => destruct b end; lia.
Qed.

Lemma valid_datetime_bounds d :
  valid_datetime d = true →
  (1 ≤ year d ≤ 9999) ∧ (1 ≤ month d ≤ 12) ∧ (1 ≤ day d ≤ 31) ∧
  (0 ≤ hour d ≤ 23) ∧ (0 ≤ minute d ≤ 59) ∧ (0 ≤ second d ≤ 59) ∧
  (0 ≤ microsecond d ≤ 999999).
Proof.
  unfold valid_datetime. rewrite !andb_true_iff, !Z.leb_le.
  pose proof (days_in_month_le (year d) (month d)). lia.
Qed.

Lemma valid_to_second d : valid_datetime d = true → valid_datetime (to_second d) = true.
Proof.
  unfold valid_datetime. rewrite !andb_true_iff, !Z.leb_le. simpl. lia.
Qed.

Lemma lex_assoc a b c : lex (lex a b) c = lex a (lex b c).
Proof. by destruct a. Qed.

Lemma zero_pad_compare4 a b s t :
  0 ≤ a ≤ 9999 → 0 ≤ b ≤ 9999 →
  String.compare (zero_pad 4 a s) (zero_pad 4 b t) =
    lex (a ?= b) (String.compare s t).
Proof. intros Ha Hb. apply zero_pad_compare; simpl; lia. Qed.

Lemma zero_pad_compare2 a b s t :
  0 ≤ a ≤ 99 → 0 ≤ b ≤ 99 →
  String.compare (zero_pad 2 a s) (zero_pad 2 b t) =
    lex (a ?= b) (String.compare s t).
Proof. intros Ha Hb. apply zero_pad_compare; simpl; lia. Qed.

(** Time stamps of valid save times compare as the save times do, to the
    second. *)
Lemma strftime_then_compare d1 d2 s t :
  valid_datetime d1 = true → valid_datetime d2 = true →
  String.compare (strftime_then d1 s) (strftime_then d2 t) =
    lex (dt_compare (to_second d1) (to_second d2)) (String.compare s t).
Proof.
  intros (? & ? & ? & ? & ? & ? & ?)%valid_datetime_bounds
         (? & ? & ? & ? & ? & ? & ?)%valid_datetime_bounds.
  unfold strftime_then.
  rewrite zero_pad_compare4, !zero_pad_compare2 by lia.
  cbn [String.compare]. change (Ascii.compare "_" "_") with Eq. cbv iota.
  rewrite !zero_pad_compare2 by lia.
  unfold dt_compare, to_second. cbn [year month day hour minute second microsecond].
  rewrite Z.compare_refl, lex_Eq_r, !lex_assoc. done.
Qed.

Lemma append_String c x s : String c x +:+ s = String c (x +:+ s).
Proof. done. Qed.

Lemma strftime_then_app d rest s :
  strftime_then d rest +:+ s = strftime_then d (rest +:+ s).
Proof.
  unfold strftime_then.
  by rewrite !zero_pad_app, append_String, !zero_pad_app.
Qed.

Lemma strftime_then_length d rest :
  String.length (strftime_then d rest) = (15 + String.length rest)%nat.
Proof.
  unfold strftime_then. rewrite !zero_pad_length. cbn [String.length].
  rewrite !zero_pad_length. lia.
Qed.

Lemma run_filename_eq d :
  run_filename d = "runs/run_" +:+ strftime_then d ".csv".
Proof.
  unfold run_filename, strftime, RUN_FOLDER. by rewrite strftime_then_app.
Qed.

Lemma append_compare p s t :
  String.compare (p +:+ s) (p +:+ t) = String.compare s t.
Proof.
  induction p as [|c p IH]; simpl; [done|].
  unfold Ascii.compare. by rewrite N.compare_refl.
Qed.

Lemma run_filename_compare d1 d2 :
  valid_datetime d1 = true → valid_datetime d2 = true →
  String.compare (run_filename d1) (run_filename d2) =
    dt_compare (to_second d1) (to_second d2).
Proof.
  intros Hd1 Hd2. rewrite !run_filename_eq, append_compare.
  rewrite strftime_then_compare by done.
  change (String.compare ".csv" ".csv") with Eq. apply lex_Eq_r.
Qed.

Lemma length_append s t :
  String.length (s +:+ t) = (String.length s + String.length t)%nat.
Proof. induction s as [|c s IH]; simpl; [done|]. by rewrite IH. Qed.

Lemma run_filename_length d : String.length (run_filename d) = 28%nat.
Proof.
  by rewrite run_filename_eq, length_append, strftime_then_length.
Qed.

(** ** Reading a run time back from a file name *)

Lemma eqb_digit c k :
  (N_of_ascii c <? 48)%N || (57 <? N_of_ascii c)%N = true →
  Ascii.eqb c (digit (k mod 10)) = false.
Proof.
  intros Hc. apply Ascii.eqb_neq. intros ->.
  rewrite N_of_digit in Hc by (apply Z.mod_pos_bound; lia).
  pose proof (Z.mod_pos_bound k 10 ltac:(lia)).
  apply orb_true_iff in Hc as [Hc%N.ltb_lt|Hc%N.ltb_lt]; lia.
Qed.

Lemma has_char_zero_pad c w n rest :
  (N_of_ascii c <? 48)%N || (57 <? N_of_ascii c)%N = true →
  has_char c (zero_pad w n rest) = has_char c rest.
Proof.
  intros Hc. revert n rest. induction w as [|w IH]; intros n rest; [done|].
  cbn [zero_pad]. rewrite IH. cbn [has_char]. by rewrite eqb_digit.
Qed.

Lemma has_char_strftime c d rest :
  (N_of_ascii c <? 48)%N || (57 <? N_of_ascii c)%N = true →
  Ascii.eqb c "_" = false →
  has_char c (strftime_then d rest) = has_char c rest.
Proof.
  intros Hc Hu. unfold strftime_then.
  rewrite !has_char_zero_pad by done. cbn [has_char]. rewrite Hu.
  by rewrite !has_char_zero_pad by done.
Qed.

Lemma basename_run X :
  has_char "/" X = false → basename ("runs/run_" +:+ X) = "run_" +:+ X.
Proof.
  intros HX.
  change ("runs/run_" +:+ X) with
    (String "r" (String "u" (String "n" (String "s" (String "/"
      (String "r" (String "u" (String "n" (String "_" X))))))))).
  simpl. by rewrite !HX.
Qed.

Lemma prefix_refl s : String.prefix s s = true.
Proof.
  induction s as [|c s IH]; simpl; [done|].
  by destruct (ascii_dec c c).
Qed.

Lemma prefix_other c old b X :
  Ascii.eqb c b = false → String.prefix (String c old) (String b X) = false.
Proof.
  intros Hcb. simpl. destruct (ascii_dec c b) as [->|]; [|done].
  by rewrite Ascii.eqb_refl in Hcb.
Qed.

Lemma remove_from_absent c old X :
  has_char c X = false → remove_from (String c old) 0 X = X.
Proof.
  induction X as [|b X IH]; [done|]. cbn [has_char].
  intros [Hcb HX]%orb_false_iff. cbn [remove_from].
  rewrite prefix_other by done. by rewrite IH.
Qed.

Lemma remove_from_skip old s : remove_from old (String.length s) s = "".
Proof. induction s as [|c s IH]; [done|]. exact IH. Qed.

Lemma remove_from_suffix c old Y :
  has_char c Y = false →
  remove_from (String c old) 0 (Y +:+ String c old) = Y.
Proof.
  induction Y as [|b Y IH].
  - intros _. change ("" +:+ String c old) with (String c old).
    cbn [remove_from]. rewrite prefix_refl.
    cbn [String.length]. rewrite Nat.sub_succ, Nat.sub_0_r.
    apply remove_from_skip.
  - cbn [has_char]. intros [Hcb HY]%orb_false_iff.
    rewrite append_String. cbn [remove_from].
    rewrite prefix_other by done. by rewrite IH.
Qed.

Lemma prefix_append p X : String.prefix p (p +:+ X) = true.
Proof.
  induction p as [|c p IH]; [by destruct X|].
  rewrite append_String. simpl. by destruct (ascii_dec c c).
Qed.

Lemma remove_all_run X :
  has_char "r" X = false → remove_all "run_" ("run_" +:+ X) = X.
Proof.
  intros HX. unfold remove_all.
  pose proof (prefix_append "run_" X) as Hp. revert Hp.
  change ("run_" +:+ X) with (String "r" (String "u" (String "n" (String "_" X)))).
  intros Hp. cbn [remove_from]. rewrite Hp.
  cbn [String.length Nat.sub remove_from]. by apply remove_from_absent.
Qed.

Lemma strptime_strftime d :
  valid_datetime d = true → strptime (strftime d) = Ok (to_second d).
Proof.
  intros Hd. pose proof (valid_to_second d Hd) as Hd'.
  apply valid_datetime_bounds in Hd as (? & ? & ? & ? & ? & ? & ?).
  unfold strptime, strftime, strftime_then.
  rewrite (read_digits_zero_pad 4) by (simpl; lia). cbn [mbind option_bind].
  rewrite (read_digits_zero_pad 2) by (simpl; lia). cbn [mbind option_bind].
  rewrite (read_digits_zero_pad 2) by (simpl; lia). cbn [mbind option_bind].
  cbn [strip_prefix]. change (Ascii.eqb "_" "_") with true. cbv iota.
  cbn [mbind option_bind].
  rewrite (read_digits_zero_pad 2) by (simpl; lia). cbn [mbind option_bind].
  rewrite (read_digits_zero_pad 2) by (simpl; lia). cbn [mbind option_bind].
  rewrite (read_digits_zero_pad 2) by (simpl; lia). cbn [mbind option_bind].
  rewrite !Z.mul_0_l, !Z.add_0_l.
  change (String.eqb "" "") with true. cbn [andb].
  unfold to_second in Hd'. by rewrite Hd'.
Qed.

(** The run time read from the name [save_run] gives a file is its save
    time, to the second. *)
Lemma run_time_of_run_filename d :
  valid_datetime d = true → run_time_of (run_filename d) = Ok (to_second d).
Proof.
  intros Hd. unfold run_time_of. rewrite run_filename_eq.
  rewrite basename_run by by rewrite has_char_strftime.
  rewrite remove_all_run by by rewrite has_char_strftime.
  change (strftime_then d ".csv") with (strftime_then d ("" +:+ ".csv")).
  rewrite <- strftime_then_app.
  unfold remove_all. rewrite remove_from_suffix by by rewrite has_char_strftime.
  by apply strptime_strftime.
Qed.

(** ** Listing the run folder *)

Lemma strip_prefix_append p X : strip_prefix p (p +:+ X) = Some X.
Proof.
  induction p as [|c p IH]; [by destruct X|].
  rewrite append_String. simpl. by rewrite Ascii.eqb_refl.
Qed.

Lemma substring_all s : substring 0 (String.length s) s = s.
Proof. induction s as [|c s IH]; simpl; [done|]. by rewrite IH. Qed.

Lemma substring_append Y s :
  substring (String.length Y) (String.length s) (Y +:+ s) = s.
Proof.
  induction Y as [|c Y IH]; [apply substring_all|].
  rewrite append_String. exact IH.
Qed.

Lemma ends_with_append Y s : ends_with s (Y +:+ s) = true.
Proof.
  unfold ends_with. rewrite length_append.
  replace (String.length Y + String.length s - String.length s)%nat
    with (String.length Y) by lia.
  rewrite substring_append, String.eqb_refl, andb_true_r.
  apply Nat.leb_le. lia.
Qed.

Lemma glob_run_filename d : glob_run (run_filename d) = true.
Proof.
  unfold glob_run. rewrite run_filename_eq, strip_prefix_append.
  rewrite has_char_strftime by done.
  change (strftime_then d ".csv") with (strftime_then d ("" +:+ ".csv")).
  rewrite <- strftime_then_app. by rewrite ends_with_append.
Qed.

Lemma strptime_valid s t :
  strptime s = Ok t → valid_datetime t = true ∧ microsecond t = 0.
Proof.
  unfold strptime.
  destruct (read_digits 4 0 s) as [[y s1]|]; [|done]. cbn [mbind option_bind].
  destruct (read_digits 2 0 s1) as [[m s2]|]; [|done]. cbn [mbind option_bind].
  destruct (read_digits 2 0 s2) as [[d s3]|]; [|done]. cbn [mbind option_bind].
  destruct (strip_prefix "_" s3) as [s4|]; [|done]. cbn [mbind option_bind].
  destruct (read_digits 2 0 s4) as [[hh s5]|]; [|done]. cbn [mbind option_bind].
  destruct (read_digits 2 0 s5) as [[mm s6]|]; [|done]. cbn [mbind option_bind].
  destruct (read_digits 2 0 s6) as [[ss s7]|]; [|done]. cbn [mbind option_bind].
  destruct (String.eqb s7 "" && valid_datetime (mkDatetime y m d hh mm ss 0))
    eqn:Hok; [|done].
  intros [= <-]. by apply andb_true_iff in Hok as [_ ->].
Qed.

Lemma to_second_id t : microsecond t = 0 → to_second t = t.
Proof. destruct t. simpl. by intros ->. Qed.

Lemma well_named_spec folder :
  well_named folder = true ↔
  ∀ f, f ∈ dom folder →
       ∃ t, run_time_of f = Ok t ∧ run_filename t = f.
Proof.
  unfold well_named. rewrite forallb_forall. split.
  - intros Hall f Hf. specialize (Hall f).
    destruct (run_time_of f) as [t|].
    + exists t. split; [done|]. apply String.eqb_eq, Hall.
      by apply list_elem_of_In, elem_of_elements.
    + discriminate Hall. by apply list_elem_of_In, elem_of_elements.
  - intros Hall f Hf. apply list_elem_of_In, elem_of_elements in Hf.
    destruct (Hall f Hf) as (t & -> & ->). apply String.eqb_refl.
Qed.

Lemma well_named_elem folder f :
  well_named folder = true → f ∈ dom folder →
  ∃ t, valid_datetime t = true ∧ to_second t = t ∧
       run_time_of f = Ok t ∧ f = run_filename t.
Proof.
  intros Hwn Hf. destruct (proj1 (well_named_spec folder) Hwn f Hf) as (t & Ht & <-).
  exists t. destruct (strptime_valid _ _ Ht) as [Hv Hus].
  split; [done|]. split; [by apply to_second_id|done].
Qed.

(** Saving a run keeps the folder well named. *)
Lemma save_run_well_named df now folder :
  valid_datetime now = true → well_named folder = true →
  well_named (save_run df now folder).2 = true.
Proof.
  intros Hnow Hwn. apply well_named_spec. intros f. simpl.
  rewrite dom_insert_L, elem_of_union, elem_of_singleton. intros [->|Hf].
  - exists (to_second now). split; [by apply run_time_of_run_filename|done].
  - by apply (proj1 (well_named_spec folder) Hwn).
Qed.

Lemma filter_all {A} (P : A → Prop) `{∀ x, Decision (P x)} (l : list A) :
  Forall P l → filter P l = l.
Proof.
  induction 1 as [|x l Hx Hl IH]; [done|].
  by rewrite filter_cons, decide_True, IH.
Qed.

Lemma run_files_perm folder :
  well_named folder = true → run_files folder ≡ₚ elements (dom folder).
Proof.
  intros Hwn. unfold run_files. rewrite sort_by_perm.
  rewrite filter_all; [done|].
  apply Forall_forall. intros f Hf%elem_of_elements.
  destruct (well_named_elem folder f Hwn Hf) as (t & _ & _ & _ & ->).
  apply glob_run_filename.
Qed.

Lemma run_files_ascending folder :
  StronglySorted (ascending String.ltb) (run_files folder).
Proof.
  apply (sort_by_ascending String.ltb);
    [apply string_ltb_asym|apply string_ascending_trans].
Qed.

Lemma run_files_order folder (l1 l2 : list string) f g :
  well_named folder = true → run_files folder = l1 ++ l2 →
  f ∈ l1 → g ∈ l2 → String.compare f g = Lt ∧ earlier f g.
Proof.
  intros Hwn Hsplit Hf Hg.
  pose proof (run_files_ascending folder) as Hs.
  pose proof (run_files_perm folder Hwn) as Hperm.
  assert (NoDup (l1 ++ l2)) as Hnd.
  { rewrite <- Hsplit, Hperm. apply NoDup_elements. }
  rewrite Hsplit in Hs, Hperm.
  assert (String.compare f g = Lt) as Hlt.
  { pose proof (StronglySorted_app_1_elem_of _ _ _ _ _ Hs Hf Hg) as Hfg.
    apply string_ascending in Hfg.
    destruct (String.compare f g) eqn:Hc; [|done|done].
    exfalso. rewrite string_compare_code_points in Hc.
    apply list_compare_eq, code_points_inj in Hc as ->.
    apply NoDup_app in Hnd as (_ & Hdisj & _). by apply (Hdisj g). }
  split; [done|].
  assert (f ∈ dom folder) as Hfd.
  { apply elem_of_elements. rewrite <- Hperm. apply elem_of_app. by left. }
  assert (g ∈ dom folder) as Hgd.
  { apply elem_of_elements. rewrite <- Hperm. apply elem_of_app. by right. }
  destruct (well_named_elem folder f Hwn Hfd) as (tf & Hvf & Hsf & Htf & ->).
  destruct (well_named_elem folder g Hwn Hgd) as (tg & Hvg & Hsg & Htg & ->).
  exists tf, tg. split; [done|]. split; [done|].
  rewrite run_filename_compare in Hlt by done. by rewrite Hsf, Hsg in Hlt.
Qed.

Lemma to_second_mono a b :
  dt_compare a b ≠ Gt → dt_compare (to_second a) (to_second b) ≠ Gt.
Proof.
  unfold dt_compare, to_second. simpl.
  destruct (year a ?= year b); simpl; try done.
  destruct (month a ?= month b); simpl; try done.
  destruct (day a ?= day b); simpl; try done.
  destruct (hour a ?= hour b); simpl; try done.
  destruct (minute a ?= minute b); simpl; try done.
  destruct (second a ?= second b); simpl; done.
Qed.

Lemma last_rows_split {A} (n : nat) (l : list A) :
  ∃ l1, l = l1 ++ last_rows n l.
Proof.
  unfold last_rows. destruct (decide (n = 0%nat)).
  - by exists [].
  - exists (take (length l - n) l). by rewrite take_drop.
Qed.

Lemma last_rows_length {A} (n : nat) (l : list A) :
  (0 < n)%nat → length (last_rows n l) = (n `min` length l)%nat.
Proof.
  intros Hn. unfold last_rows. rewrite decide_False by lia.
  rewrite length_drop. lia.
Qed.

(** C8. A run file name has a fixed width and embeds the save time to the
    second, read back by the trend; the names of two saves compare as their
    save times do to the second, and never against the order of the full
    save times. In a folder of saved runs, [run_files] lists exactly the
    files of the folder, in strictly ascending order of name and of embedded
    run time; the slice of the last [n] names holds the [n] latest runs, every
    file outside it being earlier than every file inside; an empty folder
    lists as the empty list. *)
Theorem run_files_chronological (now1 now2 : datetime)
    (folder : gmap string DataFrame) :
  valid_datetime now1 = true → valid_datetime now2 = true →
  well_named folder = true →
  String.length (run_filename now1) = 28%nat ∧
  run_time_of (run_filename now1) = Ok (to_second now1) ∧
  String.compare (run_filename now1) (run_filename now2) =
    dt_compare (to_second now1) (to_second now2) ∧
  (dt_compare now1 now2 ≠ Gt →
   String.compare (run_filename now1) (run_filename now2) ≠ Gt) ∧
  (∀ f, f ∈ run_files folder ↔ f ∈ dom folder) ∧
  (∀ i j f g,
     run_files folder !! i = Some f → run_files folder !! j = Some g →
     (i < j)%nat → String.compare f g = Lt ∧ earlier f g) ∧
  (∀ n f g,
     f ∈ last_rows n (run_files folder) → g ∈ run_files folder →
     g ∉ last_rows n (run_files folder) → earlier g f) ∧
  (∀ n, (0 < n)%nat →
        length (last_rows n (run_files folder)) =
          (n `min` length (run_files folder))%nat) ∧
  run_files (∅ : gmap string DataFrame) = [].
Proof.
  intros Hv1 Hv2 Hwn.
  split; [apply run_filename_length|].
  split; [by apply run_time_of_run_filename|].
  split; [by apply run_filename_compare|].
  split.
  { intros Hle. rewrite run_filename_compare by done. by apply to_second_mono. }
  split.
  { intros f. rewrite (run_files_perm folder Hwn). apply elem_of_elements. }
  split.
  { intros i j f g Hi Hj Hij.
    apply (run_files_order folder (take j (run_files folder))
             (drop j (run_files folder))); [done|by rewrite take_drop| |].
    - apply elem_of_take. by exists i.
    - apply (list_elem_of_lookup_2 _ 0). by rewrite lookup_drop, Nat.add_0_r. }
  split.
  { intros n f g Hf Hg Hng.
    destruct (last_rows_split n (run_files folder)) as [l1 Hsplit].
    apply (run_files_order folder l1 (last_rows n (run_files folder)));
      [done|done| |done].
    rewrite Hsplit in Hg at 1. apply elem_of_app in Hg as [?|?]; done. }
  split; [intros n; apply last_rows_length|].
  reflexivity.
Qed.

(** ** The sample runs *)

Lemma run_files_chronological_witness :
  valid_datetime sample_time1 = true ∧ valid_datetime sample_time2 = true ∧
  well_named sample_folder = true ∧
  String.length (run_filename sample_time1) = 28%nat ∧
  run_time_of (run_filename sample_time1) = Ok (to_second sample_time1) ∧
  String.compare (run_filename sample_time1) (run_filename sample_time2) =
    dt_compare (to_second sample_time1) (to_second sample_time2) ∧
  (dt_compare sample_time1 sample_time2 ≠ Gt →
   String.compare (run_filename sample_time1) (run_filename sample_time2) ≠ Gt) ∧
  (∀ f, f ∈ run_files sample_folder ↔ f ∈ dom sample_folder) ∧
  (∀ i j f g,
     run_files sample_folder !! i = Some f →
     run_files sample_folder !! j = Some g →
     (i < j)%nat → String.compare f g = Lt ∧ earlier f g) ∧
  (∀ n f g,
     f ∈ last_rows n (run_files sample_folder) → g ∈ run_files sample_folder →
     g ∉ last_rows n (run_files sample_folder) → earlier g f) ∧
  (∀ n, (0 < n)%nat →
        length (last_rows n (run_files sample_folder)) =
          (n `min` length (run_files sample_folder))%nat) ∧
  run_files (∅ : gmap string DataFrame) = [].
Proof.
  split; [vm_compute; reflexivity|].
  split; [vm_compute; reflexivity|].
  split; [vm_compute; reflexivity|].
  apply (run_files_chronological sample_time1 sample_time2 sample_folder);
    vm_compute; reflexivity.
Defined.

(** ** The script's window *)

Lemma mapM_cons {A B} (f : A → Result B) (x : A) (l : list A) :
  mapM f (x :: l) = y ← f x; k ← mapM f l; mret (y :: k).
Proof. done. Qed.

Lemma mapM_Ok {A B} (f : A → Result B) (l : list A) :
  Forall (λ x, ∃ y, f x = Ok y) l →
  ∃ k, mapM f l = Ok k ∧ Forall2 (λ x y, f x = Ok y) l k.
Proof.
  induction 1 as [|x l [y Hy] Hl (k & Hk & Hall)].
  - exists []. split; [done|constructor].
  - exists (y :: k). split; [|by constructor].
    by rewrite mapM_cons, Hy, Hk.
Qed.

(** In a folder of saved runs the trend loop reads every file of its
    window and parses its run time; the trend is [buildTrend] of the window
    so loaded. *)
Lemma trend_df_window folder (last_n_runs : nat) :
  well_named folder = true →
  let files := run_files folder in
  let trend_runs := last_rows (last_n_runs `min` length files)%nat files in
  ∃ window,
    Forall2 (λ f p, run_time_of f = Ok p.1 ∧ folder !! f = Some p.2)
            trend_runs window ∧
    trend_df folder last_n_runs = buildTrend window.
Proof.
  intros Hwn files trend_runs.
  destruct (mapM_Ok (load_run folder) trend_runs) as (window & Hm & Hall).
  { apply Forall_forall. intros f Hf.
    assert (f ∈ dom folder) as Hfd.
    { apply elem_of_elements. rewrite <- (run_files_perm folder Hwn).
      destruct (last_rows_split (last_n_runs `min` length files)%nat files)
        as [l1 Hsplit].
      fold files. rewrite Hsplit. apply elem_of_app. by right. }
    destruct (well_named_elem folder f Hwn Hfd) as (t & _ & _ & Ht & _).
    apply elem_of_dom in Hfd as [df Hdf].
    exists (t, df). unfold load_run, read_csv. rewrite Hdf.
    cbn [mbind result_bind]. by rewrite Ht. }
  exists window. split.
  - eapply Forall2_impl; [exact Hall|].
    intros f [t df]. unfold load_run, read_csv.
    destruct (folder !! f) as [df'|]; [|done]. cbn [mbind result_bind].
    destruct (run_time_of f) as [t'|]; [|done]. cbn [mbind result_bind].
    by intros [= -> ->].
  - unfold trend_df. fold files. fold trend_runs. by rewrite Hm.
Qed.

(** * Further properties of the script *)

(** ** The reduction as an operation *)

Lemma sublist_same_length {A} (l1 l2 : list A) :
  l1 `sublist_of` l2 → length l1 = length l2 → l1 = l2.
Proof.
  induction 1 as [|x l1 l2 Hs IH|x l1 l2 Hs IH]; simpl; [done| |].
  - intros [= Hlen]. by rewrite IH.
  - intros Hlen. apply sublist_length in Hs. lia.
Qed.

Lemma strictly_ascending (df : DataFrame) :
  StronglySorted (ascending ts_ltb) df → NoDup (timestamp <$> df) →
  StronglySorted (λ a b, timestamp a < timestamp b) df.
Proof.
  induction 1 as [|e df Hs IH He]; [constructor|].
  rewrite fmap_cons, NoDup_cons. intros [Hnin Hnd].
  constructor; [by apply IH|].
  rewrite Forall_forall in He. apply Forall_forall. intros e' He'.
  assert (timestamp e ≤ timestamp e') by by apply ts_ascending_le, He.
  assert (timestamp e ≠ timestamp e'); [|lia].
  intros Heq. apply Hnin. rewrite Heq. by apply list_elem_of_fmap_2.
Qed.

(** X1. Reducing a reduced state keeps exactly its rows, and keeps them in
    their order when no two of them share a timestamp (rows of equal
    timestamp may come back from the sort in another order). A reduced
    state is in ascending order of timestamp, and its rows are rows of the
    snapshot, in the order the sorted snapshot has them. *)
Theorem reduce_idempotent (df : DataFrame) :
  reduce (reduce df) ≡ₚ reduce df ∧
  (NoDup (timestamp <$> reduce df) → reduce (reduce df) = reduce df) ∧
  StronglySorted (λ a b, timestamp a ≤ timestamp b) (reduce df) ∧
  reduce df `sublist_of` sort_values df ∧
  (∀ e, e ∈ reduce df → e ∈ df).
Proof.
  split; [|split; [|split; [|split]]].
  - unfold reduce at 1. rewrite groupby_tail1_NoDup_id.
    + apply sort_values_perm.
    + rewrite (sort_values_perm (reduce df)). apply groupby_tail1_NoDup.
  - intros Hnd. apply reduce_strictly_ascending.
    + apply strictly_ascending; [apply reduce_ascending|done].
    + apply groupby_tail1_NoDup.
  - eapply StronglySorted_impl; [|apply reduce_ascending].
    intros a b. apply ts_ascending_le.
  - apply groupby_tail1_sublist.
  - intros e He%groupby_tail1_subset. by rewrite (sort_values_perm df) in He.
Qed.

(** X2. The reduction drops a row exactly when its vessel has another row:
    it never has more rows than the snapshot, and it is the sorted snapshot
    itself, with every row kept, exactly when no vessel repeats. *)
Theorem reduce_keeps_all_iff_distinct (df : DataFrame) :
  (length (reduce df) ≤ length df)%nat ∧
  (reduce df = sort_values df ↔ NoDup (vesselid <$> df)) ∧
  (length (reduce df) = length df ↔ NoDup (vesselid <$> df)).
Proof.
  assert (NoDup (vesselid <$> sort_values df) ↔ NoDup (vesselid <$> df)) as Hnd
    by by rewrite (sort_values_perm df).
  assert (length (reduce df) ≤ length df)%nat as Hle.
  { rewrite <- (Permutation_length (sort_values_perm df)).
    apply sublist_length, groupby_tail1_sublist. }
  assert (reduce df = sort_values df ↔ NoDup (vesselid <$> df)) as Hiff.
  { rewrite <- Hnd. split.
    - intros <-. apply groupby_tail1_NoDup.
    - apply groupby_tail1_NoDup_id. }
  split; [done|]. split; [done|]. split.
  - intros Hlen. apply Hiff.
    apply sublist_same_length; [apply groupby_tail1_sublist|].
    by rewrite (sort_values_perm df).
  - intros Hd%Hiff. by rewrite Hd, (sort_values_perm df).
Qed.

(** ** Deduplication *)

Lemma drop_duplicates_from_elem seen df e :
  e ∈ drop_duplicates_from seen df ↔
    (vesselid e ∉ seen) ∧ first_of (vesselid e) df = Some e.
Proof.
  revert seen. induction df as [|x df IH]; intros seen; simpl.
  - split; [by intros ?%elem_of_nil|by intros [_ ?]].
  - destruct (decide (vesselid x ∈ seen)) as [Hin|Hnin].
    + rewrite IH. destruct (Z.eqb_spec (vesselid x) (vesselid e)) as [Heq|Hne];
        [|done].
      rewrite <- Heq. split; [tauto|]. intros [? _]. done.
    + rewrite elem_of_cons, IH, not_elem_of_union, not_elem_of_singleton.
      destruct (Z.eqb_spec (vesselid x) (vesselid e)) as [Heq|Hne].
      * split.
        { intros [->|[[? _] _]]; [done|congruence]. }
        intros [_ [= ->]]. by left.
      * split.
        { intros [->|[[_ ?] ?]]; done. }
        intros [? ?]. right. split; [split; [congruence|done]|done].
Qed.

Lemma drop_duplicates_from_sublist seen df :
  drop_duplicates_from seen df `sublist_of` df.
Proof.
  revert seen. induction df as [|x df IH]; intros seen; simpl; [constructor|].
  destruct (decide (vesselid x ∈ seen)); [by apply sublist_cons|].
  by apply sublist_skip.
Qed.

Lemma drop_duplicates_from_id seen df :
  NoDup (vesselid <$> df) → (∀ v, v ∈ vesselid <$> df → v ∉ seen) →
  drop_duplicates_from seen df = df.
Proof.
  revert seen. induction df as [|x df IH]; intros seen; [done|].
  rewrite fmap_cons, NoDup_cons. intros [Hnin Hnd] Hseen. simpl.
  rewrite decide_False by (apply Hseen, list_elem_of_here).
  f_equal. apply IH; [done|].
  intros v Hv. rewrite not_elem_of_union, not_elem_of_singleton.
  split; [by intros ->|]. by apply Hseen, list_elem_of_further.
Qed.

(** X3. Deduplication keeps, of every vessel, the first row of the table
    and no other: the rows kept stand in table order, a table without a
    repeated vessel is kept whole, and deduplicating twice is deduplicating
    once. *)
Theorem drop_duplicates_keeps_first (df : DataFrame) :
  (∀ e, e ∈ drop_duplicates df ↔ first_of (vesselid e) df = Some e) ∧
  drop_duplicates df `sublist_of` df ∧
  (drop_duplicates df = df ↔ NoDup (vesselid <$> df)) ∧
  drop_duplicates (drop_duplicates df) = drop_duplicates df.
Proof.
  assert (∀ l, NoDup (vesselid <$> l) → drop_duplicates l = l) as Hid.
  { intros l Hnd. apply drop_duplicates_from_id; [done|].
    intros v _. apply not_elem_of_empty. }
  split; [|split; [|split]].
  - intros e. unfold drop_duplicates. rewrite drop_duplicates_from_elem.
    split; [tauto|]. split; [apply not_elem_of_empty|done].
  - apply drop_duplicates_from_sublist.
  - split; [|apply Hid]. intros <-. apply drop_duplicates_from_NoDup.
  - apply Hid, drop_duplicates_from_NoDup.
Qed.

(** ** Key metrics and new vessels *)

Lemma size_list_to_set_le `{Countable A} (l : list A) :
  (size (list_to_set (C:=gset A) l) ≤ length l)%nat.
Proof.
  induction l as [|x l IH].
  - rewrite list_to_set_nil, size_empty. simpl. lia.
  - rewrite list_to_set_cons, size_union_alt, size_singleton. simpl.
    assert (size (list_to_set (C:=gset A) l ∖ {[x]}) ≤
            size (list_to_set (C:=gset A) l))%nat
      by (apply subseteq_size, subseteq_difference_l; done).
    lia.
Qed.

Lemma size_difference_intersection `{Countable A} (X Y : gset A) :
  size X = (size (X ∖ Y) + size (X ∩ Y))%nat.
Proof.
  rewrite <- size_union.
  - f_equal. apply set_eq. intros x.
    rewrite elem_of_union, elem_of_difference, elem_of_intersection.
    destruct (decide (x ∈ Y)); tauto.
  - intros x. rewrite elem_of_difference, elem_of_intersection. tauto.
Qed.

(** X4. The key metrics of a reduced current run: the total is the number
    of its rows; the new vessels are none of the previous run's, and with
    the vessels also in the previous run they make up the total; the number
    of active regions, the null region counted as one, never exceeds the
    total. *)
Theorem kpi_metrics_bounds (df previous_run : DataFrame) :
  let current_run := reduce df in
  let '(total, new, regions) := kpi_metrics current_run previous_run in
  total = length current_run ∧
  new_vessels current_run previous_run ∩ vessel_set previous_run = ∅ ∧
  total = (new + size (vessel_set current_run ∩ vessel_set previous_run))%nat ∧
  (new ≤ total)%nat ∧
  (regions ≤ total)%nat.
Proof.
  cbn zeta. unfold kpi_metrics.
  assert (size (vessel_set (reduce df)) = length (reduce df)) as Htotal.
  { rewrite length_reduce. f_equal. apply set_eq. intros v.
    by rewrite !elem_of_vessel_set, reduce_vessels. }
  pose proof (size_difference_intersection (vessel_set (reduce df))
                (vessel_set previous_run)) as Hsplit.
  split; [done|]. split; [|split; [done|split]].
  - apply set_eq. intros v. unfold new_vessels.
    rewrite elem_of_intersection, elem_of_difference.
    split; [tauto|by intros ?%not_elem_of_empty].
  - unfold new_vessels. lia.
  - rewrite Htotal. unfold region_set.
    rewrite <- (length_fmap eez_overall). apply size_list_to_set_le.
Qed.

Lemma filter_ext_in {A} (P Q : A → Prop)
    `{∀ x, Decision (P x)} `{∀ x, Decision (Q x)} (l : list A) :
  (∀ x, x ∈ l → P x ↔ Q x) → filter P l = filter Q l.
Proof.
  induction l as [|x l IH]; intros Hext; [done|].
  rewrite !filter_cons.
  rewrite IH by (intros y Hy; by apply Hext, list_elem_of_further).
  pose proof (Hext x (list_elem_of_here _ _)).
  destruct (decide (P x)), (decide (Q x)); tauto.
Qed.

Lemma filter_vessels_NoDup (P : Event → Prop) `{∀ e, Decision (P e)} df :
  NoDup (vesselid <$> df) → NoDup (vesselid <$> filter P df).
Proof.
  intros Hnd. eapply sublist_NoDup; [exact Hnd|].
  apply fmap_sublist, sublist_filter.
Qed.

(** X5. When it is not the first run, the button "Show New Jammed Vessels"
    on a reduced current run answers that there is no new vessel exactly
    when every current vessel is in the previous run; otherwise its table
    holds, in frame order, the current rows whose vessel is not in the
    previous run, as many rows as the metric "New Jammed Vessels" counts. *)
Theorem show_new_jammed_vessels_rows (df previous_run : DataFrame) :
  let current_run := reduce df in
  match show_new_jammed_vessels false current_run previous_run with
  | baseline_info => False
  | no_new_vessels => vessel_set current_run ⊆ vessel_set previous_run
  | new_vessels_table rows =>
      ¬ vessel_set current_run ⊆ vessel_set previous_run ∧
      rows = (λ e, (vesselid e, eez_overall e, timestamp e))
               <$> filter (λ e, vesselid e ∉ vessel_set previous_run)
                     current_run ∧
      length rows = (kpi_metrics current_run previous_run).1.2
  end.
Proof.
  cbn zeta. unfold show_new_jammed_vessels, kpi_metrics. cbn [fst snd].
  set (cur := reduce df).
  assert (filter (λ e, vesselid e ∈ new_vessels cur previous_run) cur =
          filter (λ e, vesselid e ∉ vessel_set previous_run) cur) as Hfilter.
  { apply filter_ext_in. intros e He. unfold new_vessels.
    rewrite elem_of_difference, elem_of_vessel_set.
    split; [tauto|]. split; [by apply list_elem_of_fmap_2|done]. }
  assert (list_to_set
            (vesselid <$> filter (λ e, vesselid e ∈ new_vessels cur previous_run) cur)
          = new_vessels cur previous_run) as Hset.
  { apply set_eq. intros v.
    rewrite elem_of_list_to_set, list_elem_of_fmap. split.
    - intros (e & -> & [? _]%list_elem_of_filter). done.
    - intros Hv. pose proof Hv as Hv'. unfold new_vessels in Hv'.
      apply elem_of_difference in Hv' as [Hc _].
      apply elem_of_vessel_set, list_elem_of_fmap in Hc as (e & -> & He).
      exists e. split; [done|]. by apply list_elem_of_filter. }
  assert (length (filter (λ e, vesselid e ∈ new_vessels cur previous_run) cur)
          = size (new_vessels cur previous_run)) as Hlen.
  { pose proof (size_list_to_set (C:=gset Z)
                  (vesselid <$>
                     filter (λ e, vesselid e ∈ new_vessels cur previous_run) cur))
      as Hsize.
    rewrite Hset, length_fmap in Hsize. symmetry. apply Hsize.
    apply filter_vessels_NoDup, groupby_tail1_NoDup. }
  destruct (filter (λ e, vesselid e ∈ new_vessels cur previous_run) cur)
    as [|e new_df] eqn:Hnew.
  - intros v Hv. destruct (decide (v ∈ vessel_set previous_run)); [done|].
    assert (v ∈ new_vessels cur previous_run) as Hin
      by (unfold new_vessels; by apply elem_of_difference).
    rewrite <- Hset in Hin. by apply elem_of_list_to_set, elem_of_nil in Hin.
  - split; [|split].
    + intros Hsub.
      assert (vesselid e ∈ new_vessels cur previous_run) as Hin.
      { rewrite <- Hset. apply elem_of_list_to_set. apply list_elem_of_here. }
      unfold new_vessels in Hin. apply elem_of_difference in Hin as [? Hn].
      by apply Hn, Hsub.
    + by rewrite <- Hfilter.
    + by rewrite length_fmap.
Qed.

(** ** Regions tables *)

Lemma elem_of_vessels_in r run v :
  v ∈ vessels_in r run ↔ ∃ e, e ∈ run ∧ eez_overall e = Some r ∧ vesselid e = v.
Proof.
  unfold vessels_in. rewrite elem_of_list_to_set, list_elem_of_fmap. split.
  - intros (e & -> & [? ?]%list_elem_of_filter). by exists e.
  - intros (e & ? & ? & <-). exists e. split; [done|].
    by apply list_elem_of_filter.
Qed.

Lemma vessels_in_empty_iff r run :
  vessels_in r run = ∅ ↔ ¬ has_region run (Some r).
Proof.
  split.
  - intros Hempty (e & He & Hr).
    assert (vesselid e ∈ vessels_in r run) as Hin
      by (apply elem_of_vessels_in; by exists e).
    rewrite Hempty in Hin. by apply not_elem_of_empty in Hin.
  - intros Hno. apply set_eq. intros v. rewrite elem_of_vessels_in.
    split; [|by intros ?%not_elem_of_empty].
    intros (e & ? & ? & _). exfalso. apply Hno. by exists e.
Qed.

Lemma vessels_in_cons r e run :
  vessels_in r (e :: run) =
    if decide (eez_overall e = Some r) then {[vesselid e]} ∪ vessels_in r run
    else vessels_in r run.
Proof.
  unfold vessels_in. rewrite filter_cons.
  destruct (decide (eez_overall e = Some r)); [|done].
  by rewrite fmap_cons, list_to_set_cons.
Qed.

Lemma vessels_by_region_lookup run r :
  vessels_by_region run !! r =
    if decide (vessels_in r run = ∅) then None else Some (vessels_in r run).
Proof.
  induction run as [|e run IH].
  - simpl. rewrite lookup_empty. by rewrite decide_True.
  - rewrite vessels_in_cons. cbn [vessels_by_region].
    destruct (eez_overall e) as [r'|] eqn:He.
    + destruct (decide (Some r' = Some r)) as [[= ->]|Hne].
      * rewrite lookup_insert_eq, IH.
        assert (({[vesselid e]} ∪ vessels_in r run : gset Z) ≠ ∅) as Hne.
        { intros Hempty.
          assert (vesselid e ∈ ({[vesselid e]} ∪ vessels_in r run : gset Z))
            as Hin by (apply elem_of_union_l, elem_of_singleton; done).
          rewrite Hempty in Hin. by apply not_elem_of_empty in Hin. }
        destruct (decide ({[vesselid e]} ∪ vessels_in r run = ∅)); [done|].
        destruct (decide (vessels_in r run = ∅)) as [Hz|Hz];
          [by rewrite Hz|reflexivity].
      * rewrite lookup_insert_ne by congruence. apply IH.
    + destruct (decide (None = Some r)); [done|]. apply IH.
Qed.

Lemma region_counts_lookup run r :
  default 0%nat (region_counts run !! r) = size (vessels_in r run).
Proof.
  unfold region_counts. rewrite lookup_fmap, vessels_by_region_lookup.
  destruct (decide (vessels_in r run = ∅)) as [Hz|]; [|done].
  rewrite Hz. symmetry. apply (size_empty (C:=gset Z)).
Qed.

Lemma region_counts_dom run r :
  r ∈ dom (region_counts run) ↔ has_region run (Some r).
Proof.
  unfold region_counts. rewrite dom_fmap_L, elem_of_dom, vessels_by_region_lookup.
  destruct (decide (vessels_in r run = ∅)) as [Hempty|Hne].
  - apply vessels_in_empty_iff in Hempty. split; [by intros [? ?]|done].
  - split; [|by eexists]. intros _.
    apply set_choose_L in Hne as [v Hv].
    apply elem_of_vessels_in in Hv as (e & ? & ? & _). by exists e.
Qed.

(** The names of a set in ascending order: each once, strictly ascending. *)
Lemma sorted_elements (X : gset string) :
  let names := sort_by String.ltb (elements X) in
  (∀ r, r ∈ names ↔ r ∈ X) ∧ NoDup names ∧
  StronglySorted (λ a b, String.compare a b = Lt) names.
Proof.
  cbn zeta.
  assert (NoDup (sort_by String.ltb (elements X))) as Hnd
    by (rewrite sort_by_perm; apply NoDup_elements).
  split; [|split; [done|]].
  - intros r. by rewrite sort_by_perm, elem_of_elements.
  - pose proof (sort_by_ascending String.ltb string_ltb_asym
                  string_ascending_trans (elements X)) as Hs.
    induction Hs as [|a l Hs IH Ha]; [constructor|].
    apply NoDup_cons in Hnd as [Hnin Hnd]. constructor; [by apply IH|].
    rewrite Forall_forall in Ha. apply Forall_forall. intros b Hb.
    pose proof (Ha b Hb) as Hab. apply string_ascending in Hab.
    destruct (String.compare a b) eqn:Hc; [|done|done].
    rewrite string_compare_code_points in Hc.
    apply list_compare_eq, code_points_inj in Hc as ->. done.
Qed.

Lemma vessels_in_size r run :
  NoDup (vesselid <$> run) →
  size (vessels_in r run) = length (filter (λ e, eez_overall e = Some r) run).
Proof.
  intros Hnd. unfold vessels_in.
  rewrite (size_list_to_set (C:=gset Z)) by by apply filter_vessels_NoDup.
  apply length_fmap.
Qed.

Lemma StronglySorted_fmap_impl {A B} (R : A → A → Prop) (R' : B → B → Prop)
    (f : A → B) (l : list A) :
  (∀ x y, R x y → R' (f x) (f y)) →
  StronglySorted R l → StronglySorted R' (f <$> l).
Proof.
  intros Himpl. induction 1 as [|x l Hs IH Hx]; [constructor|].
  rewrite fmap_cons. constructor; [done|].
  apply Forall_fmap. eapply Forall_impl; [exact Hx|]. intros y. apply Himpl.
Qed.

Lemma nunique_by_region_elem run r n :
  (r, n) ∈ nunique_by_region run ↔
    has_region run (Some r) ∧ n = size (vessels_in r run).
Proof.
  unfold nunique_by_region. rewrite list_elem_of_fmap.
  destruct (sorted_elements (dom (region_counts run))) as (Hin & _ & _).
  split.
  - intros (r' & [= <- ->] & Hr). apply Hin, region_counts_dom in Hr.
    split; [done|apply region_counts_lookup].
  - intros [Hr ->]. exists r. split; [by rewrite region_counts_lookup|].
    by apply Hin, region_counts_dom.
Qed.

Lemma size_set_map_Some (X : gset string) :
  size (set_map (D:=gset (option string)) Some X) = size X.
Proof.
  unfold set_map.
  rewrite (size_list_to_set (C:=gset (option string)))
    by (apply (NoDup_fmap_2 Some), NoDup_elements).
  by rewrite length_fmap.
Qed.

Lemma size_region_set run :
  size (region_set run) =
    (size (dom (region_counts run)) +
     if decide (None ∈ region_set run) then 1 else 0)%nat.
Proof.
  assert (region_set run =
          set_map (D:=gset (option string)) Some (dom (region_counts run)) ∪
          (if decide (None ∈ region_set run) then {[None]} else ∅)) as Hsplit.
  { apply set_eq. intros o. rewrite elem_of_union, elem_of_map. split.
    - intros Ho. destruct o as [r|].
      + left. exists r. split; [done|].
        by apply region_counts_dom, elem_of_region_set.
      + right. rewrite decide_True by done. by apply elem_of_singleton.
    - intros [(r & -> & Hr)|Ho].
      + by apply elem_of_region_set, region_counts_dom.
      + destruct (decide (None ∈ region_set run)) as [Hn|];
          [|by apply not_elem_of_empty in Ho].
        by apply elem_of_singleton in Ho as ->. }
  rewrite Hsplit at 1. rewrite size_union.
  - rewrite size_set_map_Some.
    f_equal. destruct (decide (None ∈ region_set run));
      [apply size_singleton|apply size_empty].
  - intros o. rewrite elem_of_map. intros (r & -> & _) Ho.
    destruct (decide (None ∈ region_set run));
      [by apply elem_of_singleton in Ho|by apply not_elem_of_empty in Ho].
Qed.

Lemma status_of_region cur prev r :
  has_region cur (Some r) →
  (if decide (Some r ∈ new_regions cur prev)
   then status_new else status_active) =
  (if decide (Some r ∈ region_set prev) then status_active else status_new).
Proof.
  intros Hr.
  rewrite <- elem_of_region_set in Hr.
  destruct (decide (Some r ∈ new_regions cur prev)) as [Hn|Hn];
    destruct (decide (Some r ∈ region_set prev)) as [Hp|Hp]; try done.
  - apply elem_of_new_regions_Some in Hn as [_ Hn].
    by rewrite <- elem_of_region_set in Hn.
  - exfalso. apply Hn, elem_of_new_regions_Some.
    by rewrite <- !elem_of_region_set.
Qed.

(** X6. The table of the button "Show Active Regions" on a reduced current
    run has one row for each non-null region of the run, in strictly
    ascending order of name, with the number of its vessels, at least one;
    a region is marked new exactly when no previous row has it, so against
    the empty previous frame of a first run every region is marked new; the
    null region has no row, although the metric "Active Regions" counts it
    as one. *)
Theorem show_active_regions_rows (df previous_run : DataFrame) :
  let current_run := reduce df in
  let table := show_active_regions current_run previous_run in
  (∀ r n s, (r, n, s) ∈ table ↔
     has_region current_run (Some r) ∧
     n = length (filter (λ e, eez_overall e = Some r) current_run) ∧
     s = if decide (Some r ∈ region_set previous_run)
         then status_active else status_new) ∧
  StronglySorted (λ a b, String.compare a.1.1 b.1.1 = Lt) table ∧
  (∀ r n s, (r, n, s) ∈ table → (1 ≤ n)%nat) ∧
  (kpi_metrics current_run previous_run).2 =
    (length table + if decide (None ∈ region_set current_run) then 1 else 0)%nat ∧
  (∀ r n s, (r, n, s) ∈ show_active_regions current_run [] → s = status_new).
Proof.
  cbn zeta. set (cur := reduce df).
  assert (NoDup (vesselid <$> cur)) as Hnd by apply groupby_tail1_NoDup.
  assert (∀ prev r n s, (r, n, s) ∈ show_active_regions cur prev ↔
     has_region cur (Some r) ∧
     n = length (filter (λ e, eez_overall e = Some r) cur) ∧
     s = if decide (Some r ∈ region_set prev)
         then status_active else status_new) as Hrows.
  { intros prev r n s. unfold show_active_regions.
    rewrite list_elem_of_fmap. split.
    - intros ([r' n'] & [= <- <- ->] & [Hr ->]%nunique_by_region_elem).
      split; [done|]. split; [by apply vessels_in_size|].
      by apply status_of_region.
    - intros (Hr & -> & ->). exists (r, size (vessels_in r cur)).
      split; [|by apply nunique_by_region_elem].
      rewrite vessels_in_size by done. do 2 f_equal.
      symmetry. by apply status_of_region. }
  split; [apply Hrows|]. split; [|split; [|split]].
  - unfold show_active_regions, nunique_by_region. rewrite <- list_fmap_compose.
    destruct (sorted_elements (dom (region_counts cur))) as (_ & _ & Hs).
    eapply StronglySorted_fmap_impl; [|exact Hs]. by intros a b.
  - intros r n s (Hr & -> & _)%Hrows.
    destruct Hr as (e & He & Hre).
    assert (e ∈ filter (λ e, eez_overall e = Some r) cur) as Hin
      by by apply list_elem_of_filter.
    destruct (filter _ cur); [by apply elem_of_nil in Hin|simpl; lia].
  - unfold kpi_metrics. cbn [snd]. rewrite size_region_set. f_equal.
    unfold show_active_regions, nunique_by_region.
    rewrite !length_fmap, sort_by_length. done.
  - intros r n s (_ & _ & ->)%Hrows.
    rewrite decide_False; [done|]. apply not_elem_of_empty.
Qed.

Lemma merged_counts_elem cur prev r c p :
  (r, c, p) ∈ merged_counts cur prev ↔
    (has_region cur (Some r) ∨ has_region prev (Some r)) ∧
    c = size (vessels_in r cur) ∧ p = size (vessels_in r prev).
Proof.
  unfold merged_counts. rewrite list_elem_of_fmap.
  destruct (sorted_elements (dom (region_counts cur) ∪ dom (region_counts prev)))
    as (Hin & _ & _).
  split.
  - intros (r' & [= <- -> ->] & Hr).
    apply Hin, elem_of_union in Hr. rewrite !region_counts_dom in Hr.
    by rewrite !region_counts_lookup.
  - intros (Hr & -> & ->). exists r. rewrite !region_counts_lookup.
    split; [done|]. apply Hin, elem_of_union. by rewrite !region_counts_dom.
Qed.


(** ** The run folder *)

Lemma run_files_elem folder f :
  f ∈ run_files folder ↔ f ∈ dom folder ∧ glob_run f = true.
Proof.
  unfold run_files. rewrite sort_by_perm, list_elem_of_filter, elem_of_elements.
  tauto.
Qed.

Lemma run_files_NoDup folder : NoDup (run_files folder).
Proof.
  unfold run_files. rewrite sort_by_perm.
  apply NoDup_filter, NoDup_elements.
Qed.

(** ** Fetching *)

Lemma run_filename_to_second d : run_filename (to_second d) = run_filename d.
Proof. reflexivity. Qed.

Lemma earlier_compare folder f now :
  well_named folder = true → valid_datetime now = true →
  f ∈ dom folder → earlier f (run_filename now) →
  String.compare f (run_filename now) = Lt.
Proof.
  intros Hwn Hnow Hf (tf & tk & Htf & Htk & Hlt).
  destruct (well_named_elem folder f Hwn Hf) as (t & Hv & Hs & Ht & ->).
  rewrite run_time_of_run_filename in Htk by done.
  rewrite Ht in Htf. injection Htf as <-. injection Htk as <-.
  rewrite run_filename_compare by done. by rewrite Hs.
Qed.

Lemma run_files_insert_last folder now df :
  (∀ f, f ∈ dom folder → String.compare f (run_filename now) = Lt) →
  run_files (<[run_filename now := df]> folder) =
    run_files folder ++ [run_filename now].
Proof.
  intros Hlt.
  assert (run_filename now ∉ dom folder) as Hfresh.
  { intros Hin%Hlt. rewrite string_compare_code_points, list_compare_refl in Hin.
    done. }
  apply (StronglySorted_unique_strong (ascending String.ltb)).
  - intros a b _ _. apply string_ascending_antisym.
  - apply run_files_ascending.
  - apply StronglySorted_app. split; [|split].
    + intros a b Ha ->%list_elem_of_singleton.
      apply run_files_elem in Ha as [Ha _]. apply string_ascending.
      by rewrite (Hlt a Ha).
    + apply run_files_ascending.
    + repeat constructor.
  - unfold run_files. rewrite !sort_by_perm, dom_insert_L.
    rewrite elements_union_singleton by done.
    rewrite filter_cons, decide_True by apply glob_run_filename.
    by rewrite Permutation_cons_append.
Qed.

(** X10. A fetch at a time later, to the second, than every run of the
    folder appends its file to the listing; the script then compares the
    fetched table with the run that was the latest before the fetch, or
    takes a first run when the folder was empty. *)
Theorem fetch_compares_with_latest (df : DataFrame) (now : datetime)
    (ss : SessionState) (folder : gmap string DataFrame) :
  well_named folder = true → valid_datetime now = true →
  (∀ f, f ∈ dom folder → earlier f (run_filename now)) →
  let '(ss', folder', rendered) :=
    script_run (Some (Ok (df, now))) true ss folder in
  run_files folder' = run_files folder ++ [run_filename now] ∧
  well_named folder' = true ∧
  df_current ss' = Some df ∧
  rendered = page (compare_runs folder' true df) ∧
  match last (run_files folder) with
  | None => load_previous folder' true = Ok ([], true)
  | Some f =>
      ∃ previous_df, folder !! f = Some previous_df ∧
                     load_previous folder' true = Ok (reduce previous_df, false)
  end.
Proof.
  intros Hwn Hnow Hearlier. unfold script_run, fetch, save_run, render. simpl.
  assert (∀ f, f ∈ dom folder → String.compare f (run_filename now) = Lt)
    as Hlt by (intros f Hf; by apply (earlier_compare folder), Hearlier).
  pose proof (run_files_insert_last folder now (to_csv df) Hlt) as Hfiles.
  split; [done|]. split; [by apply (save_run_well_named df now folder)|].
  split; [done|]. split; [done|].
  unfold load_previous. rewrite Hfiles, length_app. simpl.
  destruct (run_files folder) as [|f0 files] eqn:Hold using rev_ind.
  - done.
  - clear IHfiles. rewrite last_snoc, length_app. simpl.
    assert (f0 ∈ dom folder) as Hf0.
    { assert (f0 ∈ run_files folder) as Hin
        by (rewrite Hold; apply elem_of_app; right; apply list_elem_of_here).
      by apply run_files_elem in Hin as [? _]. }
    pose proof Hf0 as Hdom. apply elem_of_dom in Hf0 as [previous_df Hprev].
    exists previous_df. split; [done|].
    replace (1 <? length files + 1 + 1)%nat with true
      by (symmetry; apply Nat.ltb_lt; lia).
    simpl.
    replace (length files + 1 + 1 - 2)%nat with (length files + 0)%nat by lia.
    rewrite <- app_assoc, lookup_app_r by lia.
    replace (length files + 0 - length files)%nat with 0%nat by lia. simpl.
    unfold read_csv. rewrite lookup_insert_ne.
    + by rewrite Hprev.
    + intros Heq. specialize (Hlt f0 Hdom). rewrite <- Heq in Hlt.
      by rewrite string_compare_code_points, list_compare_refl in Hlt.
Qed.

Lemma run_filename_same_second now1 now2 :
  valid_datetime now1 = true → valid_datetime now2 = true →
  run_filename now1 = run_filename now2 ↔ to_second now1 = to_second now2.
Proof.
  intros Hv1 Hv2. split.
  - intros Heq. apply dt_compare_eq.
    rewrite <- run_filename_compare, Heq by done.
    by rewrite string_compare_code_points, list_compare_refl.
  - intros Heq.
    by rewrite <- (run_filename_to_second now1), Heq, run_filename_to_second.
Qed.

(** X11. Two saves one after the other take the same file name exactly
    when their times fall in the same second. Then the second save replaces
    the file of the first: the listing has no new file and the folder is as
    if the first save had not happened. Otherwise both files are listed and
    the first is left as it was written. No other file of the folder is
    touched. *)
Theorem save_run_overwrites_same_second (df1 df2 : DataFrame)
    (now1 now2 : datetime) (folder : gmap string DataFrame) :
  valid_datetime now1 = true → valid_datetime now2 = true →
  let '(name1, folder1) := save_run df1 now1 folder in
  let '(name2, folder2) := save_run df2 now2 folder1 in
  (name2 = name1 ↔ to_second now1 = to_second now2) ∧
  (to_second now1 = to_second now2 →
     folder2 = (save_run df2 now2 folder).2 ∧
     run_files folder2 = run_files folder1) ∧
  (to_second now1 ≠ to_second now2 →
     name1 ∈ run_files folder2 ∧ name2 ∈ run_files folder2 ∧
     folder2 !! name1 = folder1 !! name1) ∧
  (∀ f, f ≠ name1 → f ≠ name2 → folder2 !! f = folder !! f).
Proof.
  intros Hv1 Hv2. unfold save_run. cbn zeta.
  pose proof (run_filename_same_second now1 now2 Hv1 Hv2) as Hname.
  split; [by rewrite <- Hname|].
  split; [|split].
  - intros Hsame. apply Hname in Hsame. simpl. rewrite Hsame.
    split; [apply insert_insert_eq|].
    unfold run_files. by rewrite !dom_insert_L, union_assoc_L, union_idemp_L.
  - intros Hdiff.
    assert (run_filename now1 ≠ run_filename now2) as Hne
      by (intros Heq; by apply Hdiff, Hname).
    split; [|split].
    + apply run_files_elem. split; [|apply glob_run_filename].
      rewrite !dom_insert_L, !elem_of_union, !elem_of_singleton.
      right. by left.
    + apply run_files_elem. split; [|apply glob_run_filename].
      rewrite !dom_insert_L, !elem_of_union, !elem_of_singleton. by left.
    + by rewrite lookup_insert_ne.
  - intros f Hf1 Hf2. by rewrite !lookup_insert_ne.
Qed.

Lemma save_run_overwrites_same_second_witness :
  let '(name1, folder1) := save_run sample_previous sample_time1 ∅ in
  let '(name2, folder2) :=
    save_run sample_current (mkDatetime 2024 3 9 23 59 58 900000) folder1 in
  (name2 = name1 ↔
     to_second sample_time1 =
       to_second (mkDatetime 2024 3 9 23 59 58 900000)) ∧
  (to_second sample_time1 = to_second (mkDatetime 2024 3 9 23 59 58 900000) →
     folder2 =
       (save_run sample_current (mkDatetime 2024 3 9 23 59 58 900000) ∅).2 ∧
     run_files folder2 = run_files folder1) ∧
  (to_second sample_time1 ≠ to_second (mkDatetime 2024 3 9 23 59 58 900000) →
     name1 ∈ run_files folder2 ∧ name2 ∈ run_files folder2 ∧
     folder2 !! name1 = folder1 !! name1) ∧
  (∀ f, f ≠ name1 → f ≠ name2 → folder2 !! f = (∅ : gmap string DataFrame) !! f).
Proof.
  apply (save_run_overwrites_same_second sample_previous sample_current
           sample_time1 (mkDatetime 2024 3 9 23 59 58 900000) ∅);
    reflexivity.
Defined.

Lemma session_ok_listed ss folder :
  session_ok ss folder → run_loaded ss = true → run_files folder ≠ [].
Proof.
  unfold session_ok. intros Hok Hloaded.
  destruct (df_current ss) as [df|], (current_run_name ss) as [name|];
    try done; [|congruence].
  destruct Hok as (_ & now & _ & Hfile).
  assert (run_filename now ∈ run_files folder) as Hin.
  { apply run_files_elem. split; [by apply elem_of_dom|apply glob_run_filename]. }
  intros Hnil. rewrite Hnil in Hin. by apply elem_of_nil in Hin.
Qed.

Lemma not_fetched_raise e : ¬ fetched (Some (Raise e)).
Proof. by intros (df & now & [=]). Qed.

Lemma not_fetched_None : ¬ fetched None.
Proof. by intros (df & now & [=]). Qed.

(** One run of the script keeps the session in step with the folder. *)
Lemma script_run_step (fetch_data : option (Result (DataFrame * datetime)))
    (compare_prev : bool) (ss : SessionState) (folder : gmap string DataFrame) :
  session_ok ss folder →
  let '(ss', folder', rendered) := script_run fetch_data compare_prev ss folder in
  session_ok ss' folder' ∧
  rendered ≠ attribute_error ∧
  (rendered = stopped ↔ fetch_data = None ∧ run_loaded ss = false) ∧
  (∀ e, rendered = fetch_raised e ↔ fetch_data = Some (Raise e)) ∧
  (run_loaded ss' = true ↔ run_loaded ss = true ∨ fetched fetch_data) ∧
  (∀ f, f ∈ dom folder → f ∈ dom folder').
Proof.
  intros Hok. unfold script_run.
  destruct fetch_data as [[[df now]|e]|].
  - unfold fetch, save_run, render. simpl.
    split.
    { split; [done|]. exists now. split; [done|apply lookup_insert_eq]. }
    split; [done|]. split; [by split; [|intros [? _]]|].
    split; [by intros e|]. split.
    + split; [|done]. intros _. right. by exists df, now.
    + intros f Hf. rewrite dom_insert_L. apply elem_of_union. by right.
  - split; [done|]. split; [done|]. split; [by split; [|intros [? _]]|].
    split; [intros e'; split; by intros [= ->]|]. split; [|done].
    split; [by left|]. intros [?|?%not_fetched_raise]; done.
  - unfold render. split; [done|].
    assert (run_loaded ss = true ↔ run_loaded ss = true ∨ fetched None) as Hl.
    { split; [by left|]. intros [?|?%not_fetched_None]; done. }
    destruct (run_loaded ss) eqn:Hloaded; simpl.
    + unfold session_ok in Hok. rewrite Hloaded in Hok.
      destruct (df_current ss) as [df|] eqn:Hdf.
      * split; [done|]. split; [by split; [|intros [_ ?]]|].
        split; [by intros e|]. done.
      * by destruct (current_run_name ss).
    + split; [done|]. split; [done|]. split; [by intros e|]. done.
Qed.

(** X12. Over any sequence of runs of the script from a fresh session, in
    which a press of the fetch button may raise before anything is saved,
    the session stays in step with the folder: either nothing is loaded, or
    the flag is set and the active run is a file of the folder, the one the
    session's table was written to. A run ends with the exception of its
    fetch exactly when that fetch raises; it stops at the notice exactly
    when the button was not pressed in it and no fetch went through before
    it, so a failed fetch on a fresh session leaves the next run at the
    notice. No run reaches the reduction without a table, no file of the
    folder is removed, a run is loaded exactly when some fetch went
    through, and then the folder lists at least one run. *)
Theorem script_runs_keep_session
    (inputs : list (option (Result (DataFrame * datetime)) * bool))
    (folder : gmap string DataFrame) :
  let '(ss', folder', rendered) := script_runs inputs initial_session folder in
  session_ok ss' folder' ∧
  length rendered = length inputs ∧
  (attribute_error ∉ rendered) ∧
  (∀ i fetch_data compare_prev r,
     inputs !! i = Some (fetch_data, compare_prev) → rendered !! i = Some r →
     (r = stopped ↔
        fetch_data = None ∧
        Forall (λ input, ¬ fetched input.1) (take i inputs)) ∧
     (∀ e, r = fetch_raised e ↔ fetch_data = Some (Raise e))) ∧
  (∀ f, f ∈ dom folder → f ∈ dom folder') ∧
  (run_loaded ss' = true ↔ Exists (λ input, fetched input.1) inputs) ∧
  (run_loaded ss' = true → run_files folder' ≠ []).
Proof.
  assert (∀ ss, session_ok ss folder →
    let '(ss', folder', rendered) := script_runs inputs ss folder in
    session_ok ss' folder' ∧
    length rendered = length inputs ∧
    (attribute_error ∉ rendered) ∧
    (∀ i fetch_data compare_prev r,
       inputs !! i = Some (fetch_data, compare_prev) → rendered !! i = Some r →
       (r = stopped ↔
          fetch_data = None ∧ run_loaded ss = false ∧
          Forall (λ input, ¬ fetched input.1) (take i inputs)) ∧
       (∀ e, r = fetch_raised e ↔ fetch_data = Some (Raise e))) ∧
    (∀ f, f ∈ dom folder → f ∈ dom folder') ∧
    (run_loaded ss' = true ↔
       run_loaded ss = true ∨ Exists (λ input, fetched input.1) inputs))
    as Hgen.
  { revert folder. induction inputs as [|[fetch_data compare_prev] inputs IH];
      intros folder ss Hok.
    - simpl. split; [done|]. split; [done|]. split; [apply not_elem_of_nil|].
      split; [by intros i fd cp r ?|]. split; [done|].
      split; [by left|]. by intros [?|?%Exists_nil].
    - cbn [script_runs].
      pose proof (script_run_step fetch_data compare_prev ss folder Hok) as Hstep.
      destruct (script_run fetch_data compare_prev ss folder)
        as [[ss1 folder1] r1].
      destruct Hstep as (Hok1 & Hattr & Hstop & Hraise & Hloaded & Hdom).
      specialize (IH folder1 ss1 Hok1).
      destruct (script_runs inputs ss1 folder1) as [[ss2 folder2] more].
      destruct IH as (Hok2 & Hlen & Hattr2 & Hrun & Hdom2 & Hloaded2).
      split; [done|]. split; [simpl; by rewrite Hlen|].
      split; [apply not_elem_of_cons; by split|].
      split; [|split; [by intros f ?%Hdom%Hdom2|]].
      + intros [|i] fd cp r.
        * simpl. intros [= <- <-] [= <-]. rewrite Hstop. split; [|done].
          split; [intros [? ?]; by repeat split|tauto].
        * simpl. intros Hi Hr. destruct (Hrun i fd cp r Hi Hr) as [Hs He].
          split; [|done]. rewrite Hs, Forall_cons. simpl.
          assert (run_loaded ss1 = false ↔
                  run_loaded ss = false ∧ ¬ fetched fetch_data) as Hfalse.
          { rewrite <- !not_true_iff_false, Hloaded. tauto. }
          rewrite Hfalse. tauto.
      + rewrite Hloaded2, Hloaded, Exists_cons. simpl. tauto. }
  specialize (Hgen initial_session eq_refl).
  destruct (script_runs inputs initial_session folder) as [[ss' folder'] rendered].
  destruct Hgen as (Hok & Hlen & Hattr & Hrun & Hdom & Hloaded).
  split; [done|]. split; [done|]. split; [done|].
  split; [|split; [done|split]].
  - intros i fd cp r Hi Hr. destruct (Hrun i fd cp r Hi Hr) as [Hs He].
    split; [|done]. rewrite Hs. simpl. tauto.
  - rewrite Hloaded. simpl. split; [by intros [?|?]|by right].
  - by apply session_ok_listed.
Qed.

(** ** Persistence and trend over the run folder *)

Lemma last_rows_nil {A} (n : nat) (l : list A) : last_rows n l = [] ↔ l = [].
Proof.
  unfold last_rows. destruct (decide (n = 0%nat)) as [|Hn]; [done|].
  split; [|by intros ->].
  intros Hd. apply (f_equal length) in Hd. rewrite length_drop in Hd.
  simpl in Hd. destruct l; [done|]. simpl in Hd. lia.
Qed.

Lemma StronglySorted_of_splits {A} (R : A → A → Prop) (l : list A) :
  (∀ l1 l2 x y, l = l1 ++ l2 → x ∈ l1 → y ∈ l2 → R x y) →
  StronglySorted R l.
Proof.
  induction l as [|a l IH]; intros Hsplit; constructor.
  - apply IH. intros l1 l2 x y -> Hx Hy.
    apply (Hsplit (a :: l1) l2); [done| |done]. by apply list_elem_of_further.
  - apply Forall_forall. intros y Hy.
    apply (Hsplit [a] l); [done| |done]. apply list_elem_of_here.
Qed.

Lemma Forall2_StronglySorted {A B} (P : A → B → Prop)
    (R : A → A → Prop) (R' : B → B → Prop) (l : list A) (k : list B) :
  (∀ x x' y y', P x y → P x' y' → R x x' → R' y y') →
  Forall2 P l k → StronglySorted R l → StronglySorted R' k.
Proof.
  intros HR. induction 1 as [|x y l k Hxy Hlk IH]; [constructor|].
  intros [Hs Hx]%StronglySorted_inv. constructor; [by apply IH|].
  clear IH Hs. induction Hlk as [|x' y' l k Hxy' Hlk IH]; [constructor|].
  apply Forall_cons in Hx as [Hxx' Hx]. constructor; [|by apply IH].
  by apply (HR x x' y y').
Qed.

Lemma run_files_earlier folder (n : nat) :
  well_named folder = true →
  StronglySorted earlier (last_rows n (run_files folder)).
Proof.
  intros Hwn. destruct (last_rows_split n (run_files folder)) as [l0 Hl0].
  apply StronglySorted_of_splits. intros l1 l2 f g Hsplit Hf Hg.
  rewrite Hsplit, app_assoc in Hl0.
  apply (run_files_order folder (l0 ++ l1) l2 f g Hwn Hl0); [|done].
  apply elem_of_app. by right.
Qed.

(** X14. The trend over a folder of saved runs that lists at least one
    run. The loop reads every file of its slice and parses its name, and the
    frame is built: one row per file of the slice, in the order of the
    listing, with the run time read from the file name and the number of
    distinct vessels of the file. The run times of the rows increase
    strictly, so [sort_values("run_time")] leaves the rows as the loop
    appended them and no two points of the line share a run time; the slice
    has min(last_n_runs, number of listed runs) files when [last_n_runs] is
    positive. *)
Theorem trend_df_rows (folder : gmap string DataFrame) (last_n_runs : nat) :
  well_named folder = true →
  run_files folder ≠ [] →
  let files := run_files folder in
  let trend_runs := last_rows (last_n_runs `min` length files)%nat files in
  ∃ rows,
    trend_df folder last_n_runs = Ok rows ∧
    Forall2 (λ f row,
               run_time_of f = Ok (run_time row) ∧
               ∃ df, folder !! f = Some df ∧
                     jammed_vessels row = size (vessel_set df))
            trend_runs rows ∧
    StronglySorted
      (λ a b, dt_compare (run_time a) (run_time b) = Lt) rows ∧
    rows ≠ [] ∧
    ((0 < last_n_runs)%nat →
       length rows = (last_n_runs `min` length files)%nat).
Proof.
  intros Hwn Hne files trend_runs.
  destruct (trend_df_window folder last_n_runs Hwn) as (window & Hall & Htrend).
  fold files in Hall. fold trend_runs in Hall.
  assert (trend_runs ≠ []) as Htne.
  { unfold trend_runs. by rewrite last_rows_nil. }
  assert (window ≠ []) as Hwne.
  { intros ->. by apply Forall2_nil_inv_r in Hall. }
  assert (StronglySorted (λ p q, dt_compare p.1 q.1 = Lt) window) as Hsorted.
  { apply (Forall2_StronglySorted _ earlier _ trend_runs window)
      with (2 := Hall); [|by apply run_files_earlier].
    intros f g p q [Hf _] [Hg _] (tf & tg & Htf & Htg & Hlt).
    rewrite Hf in Htf. rewrite Hg in Htg.
    injection Htf as <-. injection Htg as <-. done. }
  exists (trend_point <$> window).
  split.
  { rewrite Htrend, buildTrend_points by done. f_equal.
    apply sort_rows_strictly_sorted;
      [apply run_time_ltb_asym|apply run_time_ascending_trans|].
    apply (StronglySorted_fmap_impl (λ p q, dt_compare p.1 q.1 = Lt)); [|done].
    intros p q Hlt. unfold run_time_ltb, dt_ltb. simpl. by rewrite Hlt. }
  split.
  { apply Forall2_fmap_r. eapply Forall2_impl; [exact Hall|].
    intros f [t df] [Ht Hdf]. simpl in *. split; [done|].
    exists df. split; [done|]. apply length_reduce. }
  split.
  { by apply (StronglySorted_fmap_impl (λ p q, dt_compare p.1 q.1 = Lt)). }
  split.
  { destruct window; [done|]. done. }
  intros Hn. rewrite length_fmap, <- (Forall2_length _ _ _ Hall).
  unfold trend_runs.
  assert (0 < length files)%nat as Hpos.
  { unfold files. destruct (run_files folder); [done|simpl; lia]. }
  rewrite last_rows_length by lia. lia.
Qed.

(** ** The sidebar, the tables and the stability metric together *)

Lemma elem_of_region_names regions r :
  r ∈ region_names regions ↔ Some r ∈ regions.
Proof.
  unfold region_names. rewrite elem_of_set_omap. split.
  - by intros ([r'|] & Hr & [= <-]).
  - intros Hr. by exists (Some r).
Qed.

Lemma region_names_empty regions :
  None ∉ regions → region_names regions = ∅ ↔ regions = ∅.
Proof.
  intros Hnull. split.
  - intros Hnames. apply set_eq. intros [r|].
    + rewrite <- elem_of_region_names, Hnames. done.
    + split; [done|]. by intros ?%not_elem_of_empty.
  - intros ->. apply set_eq. intros r.
    by rewrite elem_of_region_names.
Qed.

Lemma say_shown kind regions sb :
  None ∉ regions → raised sb = None →
  say kind regions sb =
    mkSidebar
      (shown sb ++ if decide (regions = ∅) then []
                   else [kind (region_names regions)])
      None.
Proof.
  intros Hnull Hraised. unfold say, join. rewrite Hraised.
  destruct (decide (regions = ∅)).
  - rewrite app_nil_r. destruct sb. simpl in *. by subst.
  - by rewrite decide_False.
Qed.

Lemma surge_shown_tail cur prev sb :
  raised sb = None →
  raised (surge cur prev sb) = None ∧
  ∃ tail, shown (surge cur prev sb) = shown sb ++ tail ∧
          (length tail ≤ 1)%nat ∧ ∀ m, m ∈ tail → ∃ pct, m = error pct.
Proof.
  intros Hraised. unfold surge. rewrite Hraised.
  destruct (_ && _); [destruct (negb _)|]; simpl.
  - split; [done|]. eexists. split; [done|]. split; [simpl; lia|].
    intros m ->%list_elem_of_singleton. by eexists.
  - split; [done|]. exists []. rewrite app_nil_r. split; [done|].
    split; [simpl; lia|]. by intros m ?%elem_of_nil.
  - split; [done|]. exists []. rewrite app_nil_r. split; [done|].
    split; [simpl; lia|]. by intros m ?%elem_of_nil.
Qed.

Lemma smart_alerts_shown current_run previous_run :
  ¬ has_region current_run None → ¬ has_region previous_run None →
  let sb := smart_alerts false current_run previous_run in
  let new := new_regions current_run previous_run in
  let resolved := resolved_regions current_run previous_run in
  raised sb = None ∧
  ∃ tail,
    shown sb =
      (if decide (new = ∅) then [] else [warning (region_names new)]) ++
      (if decide (resolved = ∅) then [] else [success (region_names resolved)]) ++
      tail ∧
    (length tail ≤ 1)%nat ∧ ∀ m, m ∈ tail → ∃ pct, m = error pct.
Proof.
  intros Hcur Hprev. cbn zeta. unfold smart_alerts.
  rewrite (say_shown warning) by
    (try done; rewrite elem_of_new_regions; tauto).
  rewrite (say_shown success) by
    (try done; rewrite elem_of_resolved_regions; tauto).
  match goal with
  | |- context [surge ?c ?p ?sb] =>
      destruct (surge_shown_tail c p sb eq_refl)
        as (Hraised & tail & Hshown & Hlen & Htail)
  end.
  split; [done|]. exists tail. split; [|done].
  rewrite Hshown. simpl. by rewrite <- app_assoc.
Qed.

Lemma size_zero_iff `{Countable A} (X : gset A) : size X = 0%nat ↔ X = ∅.
Proof.
  pose proof (size_empty_iff (C:=gset A) X) as Hz.
  unfold_leibniz. done.
Qed.

Lemma show_active_regions_elem cur prev r n s :
  (r, n, s) ∈ show_active_regions cur prev ↔
    has_region cur (Some r) ∧ n = size (vessels_in r cur) ∧
    s = if decide (Some r ∈ new_regions cur prev)
        then status_new else status_active.
Proof.
  unfold show_active_regions. rewrite list_elem_of_fmap. split.
  - by intros ([r' n'] & [= <- <- ->] & [Hr ->]%nunique_by_region_elem).
  - intros (Hr & -> & ->). exists (r, size (vessels_in r cur)).
    split; [done|]. by apply nunique_by_region_elem.
Qed.

Lemma region_messages_shown current_run previous_run :
  ¬ has_region current_run None → ¬ has_region previous_run None →
  let sb := smart_alerts false current_run previous_run in
  let new := new_regions current_run previous_run in
  let resolved := resolved_regions current_run previous_run in
  (∀ names, warning names ∈ shown sb ↔
              new ≠ ∅ ∧ names = region_names new) ∧
  (∀ names, success names ∈ shown sb ↔
              resolved ≠ ∅ ∧ names = region_names resolved).
Proof.
  intros Hcur Hprev.
  destruct (smart_alerts_shown current_run previous_run Hcur Hprev)
    as (Hraised & tail & Hshown & Hlen & Htail).
  cbn zeta. set (sb := smart_alerts false current_run previous_run) in *.
  set (new := new_regions current_run previous_run) in *.
  set (resolved := resolved_regions current_run previous_run) in *.
  split.
  - intros names. rewrite Hshown, !elem_of_app. split.
    + intros [Hw|[Hs|Ht]].
      * destruct (decide (new = ∅)); [by apply elem_of_nil in Hw|].
        by apply list_elem_of_singleton in Hw as [= ->].
      * destruct (decide (resolved = ∅)); [by apply elem_of_nil in Hs|].
        by apply list_elem_of_singleton in Hs.
      * by apply Htail in Ht as [pct ?].
    + intros [Hne ->]. left. rewrite decide_False by done.
      apply list_elem_of_here.
  - intros names. rewrite Hshown, !elem_of_app. split.
    + intros [Hw|[Hs|Ht]].
      * destruct (decide (new = ∅)); [by apply elem_of_nil in Hw|].
        by apply list_elem_of_singleton in Hw.
      * destruct (decide (resolved = ∅)); [by apply elem_of_nil in Hs|].
        by apply list_elem_of_singleton in Hs as [= ->].
      * by apply Htail in Ht as [pct ?].
    + intros [Hne ->]. right. left. rewrite decide_False by done.
      apply list_elem_of_here.
Qed.

Lemma merged_counts_zero cur prev r :
  (∃ p, (r, 0%nat, p) ∈ merged_counts cur prev) ↔
    Some r ∈ resolved_regions cur prev.
Proof.
  rewrite elem_of_resolved_regions_Some. split.
  - intros (p & (Hr & Hz & _)%merged_counts_elem).
    symmetry in Hz. apply size_zero_iff, vessels_in_empty_iff in Hz.
    destruct Hr as [Hc|Hp]; [done|]. by split.
  - intros [Hp Hc]. exists (size (vessels_in r prev)).
    apply merged_counts_elem. split; [by right|]. split; [|done].
    symmetry. by apply size_zero_iff, vessels_in_empty_iff.
Qed.

(** X15. The sidebar agrees with the tables. When neither run has a row
    without a region, the sidebar block ends without an exception and shows
    at most three messages, a region message never naming an empty set. A
    region is named in the warning exactly when the Active Regions table
    marks it new, and named in the success message exactly when the
    per-region counts give it a current count of 0; no region is named in
    both. With the same regions in both runs the only message left is the
    surge. *)
Theorem alerts_agree_with_tables (current_run previous_run : DataFrame) :
  ¬ has_region current_run None → ¬ has_region previous_run None →
  let sb := smart_alerts false current_run previous_run in
  raised sb = None ∧
  (length (shown sb) ≤ 3)%nat ∧
  (∀ names, warning names ∈ shown sb ∨ success names ∈ shown sb → names ≠ ∅) ∧
  (∀ r, (∃ names, warning names ∈ shown sb ∧ r ∈ names) ↔
        ∃ n, (r, n, status_new) ∈ show_active_regions current_run previous_run) ∧
  (∀ r, (∃ names, success names ∈ shown sb ∧ r ∈ names) ↔
        ∃ p, (r, 0%nat, p) ∈ merged_counts current_run previous_run) ∧
  (∀ r new resolved, warning new ∈ shown sb → success resolved ∈ shown sb →
                     ¬ (r ∈ new ∧ r ∈ resolved)) ∧
  (region_set current_run = region_set previous_run →
     ∀ m, m ∈ shown sb → ∃ pct, m = error pct).
Proof.
  intros Hcur Hprev.
  destruct (smart_alerts_shown current_run previous_run Hcur Hprev)
    as (Hraised & tail & Hshown & Hlen & Htail).
  cbn zeta. set (sb := smart_alerts false current_run previous_run) in *.
  set (new := new_regions current_run previous_run) in *.
  set (resolved := resolved_regions current_run previous_run) in *.
  assert (None ∉ new) as Hnn
    by (unfold new; rewrite elem_of_new_regions; tauto).
  assert (None ∉ resolved) as Hnr
    by (unfold resolved; rewrite elem_of_resolved_regions; tauto).
  destruct (region_messages_shown current_run previous_run Hcur Hprev)
    as [Hwarning Hsuccess].
  fold sb new resolved in Hwarning, Hsuccess.
  split; [done|]. split.
  { rewrite Hshown, !length_app.
    destruct (decide (new = ∅)), (decide (resolved = ∅)); simpl; lia. }
  split.
  { intros names [[Hne ->]%Hwarning|[Hne ->]%Hsuccess];
      by rewrite region_names_empty. }
  split.
  { intros r. split.
    - intros (names & [Hne ->]%Hwarning & Hr%elem_of_region_names).
      exists (size (vessels_in r current_run)).
      apply show_active_regions_elem.
      apply elem_of_new_regions in Hr as Hr'. destruct Hr' as [Hc _].
      split; [done|]. split; [done|]. by rewrite decide_True.
    - intros (n & (_ & _ & Hs)%show_active_regions_elem).
      fold new in Hs.
      destruct (decide (Some r ∈ new)) as [Hr|]; [|done].
      exists (region_names new). split; [|by apply elem_of_region_names].
      apply Hwarning. split; [|done]. intros He. rewrite He in Hr.
      by apply not_elem_of_empty in Hr. }
  split.
  { intros r. rewrite merged_counts_zero. fold resolved. split.
    - by intros (names & [Hne ->]%Hsuccess & Hr%elem_of_region_names).
    - intros Hr. exists (region_names resolved).
      split; [|by apply elem_of_region_names].
      apply Hsuccess. split; [|done]. intros He. rewrite He in Hr.
      by apply not_elem_of_empty in Hr. }
  split.
  { intros r ? ? [_ ->]%Hwarning [_ ->]%Hsuccess.
    rewrite !elem_of_region_names. unfold new, resolved.
    rewrite elem_of_new_regions_Some, elem_of_resolved_regions_Some. tauto. }
  intros Heq m. rewrite Hshown.
  assert (∀ x, has_region current_run x ↔ has_region previous_run x) as Hsame
    by (intros x; by rewrite <- !elem_of_region_set, Heq).
  assert (new = ∅) as ->.
  { apply set_eq. intros x. unfold new. rewrite elem_of_new_regions.
    split; [|by intros ?%not_elem_of_empty].
    intros [Hx [->|Hn]]; [done|]. exfalso. by apply Hn, Hsame. }
  assert (resolved = ∅) as ->.
  { apply set_eq. intros x. unfold resolved. rewrite elem_of_resolved_regions.
    split; [|by intros ?%not_elem_of_empty].
    intros [Hx [->|Hn]]; [done|]. exfalso. by apply Hn, Hsame. }
  rewrite !decide_True by done. simpl. apply Htail.
Qed.

Lemma alerts_agree_with_tables_witness :
  let sb := smart_alerts false sample_current sample_previous in
  raised sb = None ∧
  (length (shown sb) ≤ 3)%nat ∧
  (∀ names, warning names ∈ shown sb ∨ success names ∈ shown sb → names ≠ ∅) ∧
  (∀ r, (∃ names, warning names ∈ shown sb ∧ r ∈ names) ↔
        ∃ n, (r, n, status_new) ∈ show_active_regions sample_current sample_previous) ∧
  (∀ r, (∃ names, success names ∈ shown sb ∧ r ∈ names) ↔
        ∃ p, (r, 0%nat, p) ∈ merged_counts sample_current sample_previous) ∧
  (∀ r new resolved, warning new ∈ shown sb → success resolved ∈ shown sb →
                     ¬ (r ∈ new ∧ r ∈ resolved)) ∧
  (region_set sample_current = region_set sample_previous →
     ∀ m, m ∈ shown sb → ∃ pct, m = error pct).
Proof.
  apply (alerts_agree_with_tables sample_current sample_previous).
  - intros (e & He & Hr). revert Hr.
    repeat (apply elem_of_cons in He as [->|He]; [discriminate|]).
    by apply elem_of_nil in He.
  - intros (e & He & Hr). revert Hr.
    repeat (apply elem_of_cons in He as [->|He]; [discriminate|]).
    by apply elem_of_nil in He.
Defined.

Lemma true_div_pct (k n : nat) :
  (0 < n)%nat →
  ((true_div (Z.of_nat k) (Z.of_nat n) * 100 == 100)%Q ↔ k = n) ∧
  ((true_div (Z.of_nat k) (Z.of_nat n) * 100 < 100)%Q ↔ (k < n)%nat) ∧
  ((true_div (Z.of_nat k) (Z.of_nat n) * 100 == 0)%Q ↔ k = 0%nat).
Proof.
  intros Hn. unfold true_div.
  destruct (Z.of_nat n) as [|p|p] eqn:Hp; try lia.
  unfold Qeq, Qlt, Qdiv, Qmult, Qinv, inject_Z. simpl.
  rewrite ?Pos.mul_1_r, ?Pos.mul_1_l. lia.
Qed.

Lemma size_resolved_regions current_run previous_run :
  ¬ has_region previous_run None →
  size (region_set previous_run) =
    (size (resolved_regions current_run previous_run) +
     size (region_set current_run ∩ region_set previous_run))%nat.
Proof.
  intros Hprev.
  rewrite (size_difference_intersection (region_set previous_run)
             (region_set current_run)).
  f_equal; f_equal; apply set_eq; intros r.
  - rewrite elem_of_resolved_regions, elem_of_difference, !elem_of_region_set.
    split; [tauto|]. by intros [Hp [->|Hc]].
  - rewrite !elem_of_intersection. tauto.
Qed.

Lemma say_null msg regions sb :
  None ∈ regions → raised sb = None →
  raised (say msg regions sb) = Some TypeError.
Proof.
  intros Hnull Hraised. unfold say, join. rewrite Hraised.
  destruct (decide (regions = ∅)) as [He|_].
  - rewrite He in Hnull. by apply not_elem_of_empty in Hnull.
  - by rewrite decide_True.
Qed.

Lemma say_raised msg regions sb e :
  raised sb = Some e → say msg regions sb = sb.
Proof. intros Hraised. unfold say. by rewrite Hraised. Qed.

Lemma surge_raised cur prev sb e :
  raised sb = Some e → surge cur prev sb = sb.
Proof. intros Hraised. unfold surge. by rewrite Hraised. Qed.

(** The stability metric is reached only when neither run has a row
    without a region: a null of either run is in one of the two set
    differences, and [join] raises on it before the metric. *)
Lemma compare_runs_without_null folder compare_prev df c :
  compare_runs folder compare_prev df = Ok c → first_run c = false →
  ¬ has_region (reduce df) None ∧ ¬ has_region (previous_run c) None.
Proof.
  unfold compare_runs.
  destruct (load_previous folder compare_prev) as [[prev fr]|]; [|done].
  simpl.
  destruct (raised (smart_alerts fr (reduce df) prev)) eqn:Hr; [done|].
  intros [= <-]. simpl. intros ->. unfold smart_alerts in Hr.
  set (sb1 := say warning (new_regions (reduce df) prev) (mkSidebar [] None))
    in Hr.
  set (sb2 := say success (resolved_regions (reduce df) prev) sb1) in Hr.
  assert (raised sb2 = None) as Hr2.
  { destruct (raised sb2) as [e|] eqn:He; [|done].
    by rewrite (surge_raised _ _ _ e He), He in Hr. }
  assert (raised sb1 = None) as Hr1.
  { destruct (raised sb1) as [e|] eqn:He; [|done].
    unfold sb2 in Hr2. by rewrite (say_raised _ _ _ e He), He in Hr2. }
  split; intros Hnull.
  - unfold sb1 in Hr1. rewrite say_null in Hr1; [done| |done].
    apply elem_of_new_regions. split; [done|by left].
  - unfold sb2 in Hr2. rewrite say_null in Hr2; [done| |done].
    apply elem_of_resolved_regions. split; [done|by left].
Qed.

(** X16. The stability metric against the resolved regions, when neither
    run has a row without a region (floats taken as exact rationals). The
    metric reads 100 exactly when no region is resolved, and is below 100
    exactly when the sidebar shows the resolved-regions message, which is
    exactly when some region of the per-region counts has a current count
    of 0. It reads 0 exactly when the previous run has a region and none of
    the previous regions is in the current run. *)
Theorem stability_matches_resolved (current_run previous_run : DataFrame) :
  ¬ has_region current_run None → ¬ has_region previous_run None →
  let pct := stability_pct (region_set current_run) (region_set previous_run) in
  let sb := smart_alerts false current_run previous_run in
  ((pct == 100)%Q ↔ resolved_regions current_run previous_run = ∅) ∧
  ((pct < 100)%Q ↔ ∃ names, success names ∈ shown sb) ∧
  ((pct < 100)%Q ↔
     ∃ r p, (r, 0%nat, p) ∈ merged_counts current_run previous_run) ∧
  ((pct == 0)%Q ↔
     previous_run ≠ [] ∧
     ∀ r, has_region previous_run r → ¬ has_region current_run r).
Proof.
  intros Hcur Hprev. cbn zeta.
  destruct (region_messages_shown current_run previous_run Hcur Hprev)
    as [_ Hsuccess].
  set (sb := smart_alerts false current_run previous_run) in *.
  set (resolved := resolved_regions current_run previous_run) in *.
  pose proof (size_resolved_regions current_run previous_run Hprev) as Hsize.
  fold resolved in Hsize.
  assert ((∃ names, success names ∈ shown sb) ↔ resolved ≠ ∅) as Hmsg.
  { split.
    - by intros (names & [? _]%Hsuccess).
    - intros Hne. exists (region_names resolved). by apply Hsuccess. }
  assert ((∃ r p, (r, 0%nat, p) ∈ merged_counts current_run previous_run) ↔
          resolved ≠ ∅) as Hrow.
  { split.
    - intros (r & Hr%merged_counts_zero). fold resolved in Hr.
      intros He. rewrite He in Hr. by apply not_elem_of_empty in Hr.
    - intros Hne. apply set_choose_L in Hne as [[r|] Hr].
      + exists r. by apply merged_counts_zero.
      + exfalso. unfold resolved in Hr.
        apply elem_of_resolved_regions in Hr. tauto. }
  assert (region_set previous_run = ∅ ↔ previous_run = []) as Hnil.
  { split.
    - intros He. destruct previous_run as [|e l]; [done|]. exfalso.
      assert (eez_overall e ∈ region_set (e :: l)) as Hin
        by (apply elem_of_region_set; exists e; split; [apply list_elem_of_here|done]).
      rewrite He in Hin. by apply not_elem_of_empty in Hin.
    - by intros ->. }
  rewrite Hmsg, Hrow. clear Hmsg Hrow Hsuccess.
  unfold stability_pct.
  destruct (decide (region_set previous_run ≠ ∅)) as [Hne|He].
  - apply size_pos_iff in Hne as Hpos.
    destruct (true_div_pct
                (size (region_set current_run ∩ region_set previous_run))
                (size (region_set previous_run)) Hpos) as (H100 & Hlt & H0).
    rewrite H100, Hlt, H0, <- (size_pos_iff resolved),
      <- (size_zero_iff resolved),
      (size_zero_iff (region_set current_run ∩ region_set previous_run)).
    split; [lia|]. split; [lia|]. split; [lia|].
    split.
    + intros Hcap. split; [by rewrite <- Hnil|].
      intros r Hp%elem_of_region_set Hc%elem_of_region_set.
      assert (r ∈ region_set current_run ∩ region_set previous_run) as Hin
        by by apply elem_of_intersection.
      rewrite Hcap in Hin. by apply not_elem_of_empty in Hin.
    + intros [_ Hall]. apply set_eq. intros r.
      rewrite elem_of_intersection, !elem_of_region_set.
      split; [|by intros ?%not_elem_of_empty].
      intros [Hc Hp]. by apply Hall in Hp.
  - assert (region_set previous_run = ∅) as Hempty
      by (destruct (decide (region_set previous_run = ∅)); [done|by destruct He]).
    assert (resolved = ∅) as Hres.
    { unfold resolved, resolved_regions. rewrite Hempty. apply set_eq.
      intros r. rewrite elem_of_difference.
      split; [by intros [?%not_elem_of_empty _]|by intros ?%not_elem_of_empty]. }
    rewrite Hres. apply Hnil in Hempty.
    split; [done|]. split; [split; [by intros ?|done]|].
    split; [split; [by intros ?|done]|].
    split; [by intros ?|]. by intros [? _].
Qed.

Lemma stability_matches_resolved_witness :
  let pct := stability_pct (region_set sample_current) (region_set sample_previous) in
  let sb := smart_alerts false sample_current sample_previous in
  ((pct == 100)%Q ↔ resolved_regions sample_current sample_previous = ∅) ∧
  ((pct < 100)%Q ↔ ∃ names, success names ∈ shown sb) ∧
  ((pct < 100)%Q ↔
     ∃ r p, (r, 0%nat, p) ∈ merged_counts sample_current sample_previous) ∧
  ((pct == 0)%Q ↔
     sample_previous ≠ [] ∧
     ∀ r, has_region sample_previous r → ¬ has_region sample_current r).
Proof.
  apply (stability_matches_resolved sample_current sample_previous).
  - intros (e & He & Hr). revert Hr.
    repeat (apply elem_of_cons in He as [->|He]; [discriminate|]).
    by apply elem_of_nil in He.
  - intros (e & He & Hr). revert Hr.
    repeat (apply elem_of_cons in He as [->|He]; [discriminate|]).
    by apply elem_of_nil in He.
Defined.
End Script.

(** * The sample runs under a sort kind

    What follows is closed: the sort kind is one of the two above. *)

(** Under a sort that keeps rows of equal timestamp in frame order, the
    row kept for a vessel is its last-seen row of greatest timestamp. *)
Lemma reduce_ties_in_order (df : DataFrame) (e : Event) :
  e ∈ reduce (kind:=ties_in_order) df → latest_at (vesselid e) df e.
Proof.
  intros He. apply groupby_tail1_elem in He.
  change (sort_values (kind:=ties_in_order) df) with (sort_by ts_ltb df) in He.
  rewrite last_of_sort_by in He. by apply latest_of_latest_at.
Qed.



Section Samples.
#[local] Existing Instance ties_in_order.

(** C2, as the claim has it, fails: with one current vessel of null region
    and one previous vessel of region EEZ_A, both reduced, the null region
    is in the current region set, is reported new, and is reported resolved
    when the two runs are swapped. *)
Lemma null_region_reported_new :
  let current_run := reduce [mkEvent 7 None 100 None None] in
  let previous_run := reduce [mkEvent 7 (Some "EEZ_A") 50 None None] in
  None ∈ region_set current_run ∧
  None ∈ new_regions current_run previous_run ∧
  None ∈ resolved_regions previous_run current_run.
Proof.
  cbn zeta.
  assert (has_region (reduce [mkEvent 7 None 100 None None]) None) as Hcur.
  { eexists. split; [apply list_elem_of_here|reflexivity]. }
  split; [by apply elem_of_region_set|].
  split; [apply elem_of_new_regions|apply elem_of_resolved_regions];
    (split; [done|by left]).
Qed.

Lemma buildTrend_sorted_witness :
  [(sample_time2, sample_current); (sample_time1, sample_previous)] ≠ [] ∧
  ∃ rows,
    buildTrend [(sample_time2, sample_current); (sample_time1, sample_previous)]
      = Ok rows ∧
    rows ≡ₚ trend_point <$>
      [(sample_time2, sample_current); (sample_time1, sample_previous)] ∧
    length rows =
      length [(sample_time2, sample_current); (sample_time1, sample_previous)] ∧
    StronglySorted run_time_le rows ∧
    (NoDup (fst <$>
       [(sample_time2, sample_current); (sample_time1, sample_previous)]) →
     buildTrend
       (sort_window
          [(sample_time2, sample_current); (sample_time1, sample_previous)])
       = Ok rows ∧
     ∀ window',
       window' ≡ₚ
         [(sample_time2, sample_current); (sample_time1, sample_previous)] →
       buildTrend window' = Ok rows).
Proof.
  split; [discriminate|].
  apply (buildTrend_sorted
           [(sample_time2, sample_current); (sample_time1, sample_previous)]).
  discriminate.
Defined.

Lemma no_comparison_is_first_run_witness :
  length (run_files sample_folder) = 2%nat ∧
  (false = false ∨ (length (run_files sample_folder) ≤ 1)%nat) ∧
  compare_runs sample_folder false sample_current =
    Ok (mkComparison true [] [] None).
Proof.
  split; [vm_compute; reflexivity|].
  split; [by left|].
  apply (no_comparison_is_first_run sample_folder false sample_current).
  by left.
Defined.

(** With the comparison on, the sample folder gives the scenario of the
    spec: the region EEZ_B is new, the surge alert shows 33%, stability is
    100, and the trend has the two runs in time order. *)
Example sample_cycle :
  compare_runs sample_folder true sample_current =
    Ok (mkComparison false (reduce sample_previous)
          [warning {["EEZ_B"]}; error 33]
          (Some (stability_pct (region_set sample_current)
                   (region_set sample_previous)))) ∧
  (stability_pct (region_set sample_current) (region_set sample_previous)
     == 100)%Q ∧
  new_vessels (reduce sample_current) (reduce sample_previous) = {[4; 5]} ∧
  trend_df sample_folder 5 =
    Ok [mkTrendRow (to_second sample_time1) 3;
        mkTrendRow (to_second sample_time2) 4].
Proof. repeat split; by vm_compute. Qed.

Lemma fetch_compares_with_latest_witness :
  let folder := (save_run sample_previous sample_time1 ∅).2 in
  let '(ss', folder', rendered) :=
    script_run (Some (Ok (sample_current, sample_time2))) true
      initial_session folder in
  run_files folder' = run_files folder ++ [run_filename sample_time2] ∧
  well_named folder' = true ∧
  df_current ss' = Some sample_current ∧
  rendered = page (compare_runs folder' true sample_current) ∧
  match last (run_files folder) with
  | None => load_previous folder' true = Ok ([], true)
  | Some f =>
      ∃ previous_df, folder !! f = Some previous_df ∧
                     load_previous folder' true = Ok (reduce previous_df, false)
  end.
Proof.
  apply (fetch_compares_with_latest sample_current sample_time2 initial_session
           (save_run sample_previous sample_time1 ∅).2).
  - vm_compute; reflexivity.
  - vm_compute; reflexivity.
  - intros f Hf. simpl in Hf.
    rewrite dom_insert_L, dom_empty_L, elem_of_union, elem_of_singleton in Hf.
    destruct Hf as [->|Hf]; [|by apply not_elem_of_empty in Hf].
    exists (to_second sample_time1), (to_second sample_time2).
    repeat split; vm_compute; reflexivity.
Defined.

Lemma trend_df_rows_witness :
  ∃ rows,
    trend_df sample_folder 5 = Ok rows ∧
    Forall2 (λ f row,
               run_time_of f = Ok (run_time row) ∧
               ∃ df, sample_folder !! f = Some df ∧
                     jammed_vessels row = size (vessel_set df))
            (last_rows (5 `min` length (run_files sample_folder))%nat
               (run_files sample_folder))
            rows ∧
    StronglySorted
      (λ a b, dt_compare (run_time a) (run_time b) = Lt) rows ∧
    rows ≠ [] ∧
    ((0 < 5)%nat →
       length rows = (5 `min` length (run_files sample_folder))%nat).
Proof.
  apply (trend_df_rows sample_folder 5).
  - vm_compute. reflexivity.
  - vm_compute. discriminate.
Defined.
End Samples.
